(** * sw.js: the offline cache of the agrimarket service worker

    The script registers two event handlers with the browser:

    - [install]: [caches.open(CACHE_NAME).then(cache => cache.addAll(urlsToCache))]
    - [fetch]:   [caches.match(event.request).then(response => response || fetch(event.request))]

    Both are promise chains over the browser's cache storage and its
    network stack.  A promise is modelled as a computation over the state
    of the browser ([World]) that settles either by resolving with a value
    or by rejecting with an error; [.then] is the bind of that monad.  The
    browser interfaces the script calls ([caches.open], [cache.addAll],
    [caches.match], [fetch]) are modelled after the Service Worker
    standard and after what browsers do: a cache key is a request (method,
    URL and headers), a cache value is a full response record (status,
    headers, body); a lookup honours the [Vary] header of the stored
    response; [addAll] refuses a response that is not a plain success or
    that varies on everything, and aborts the fetches still outstanding
    when it refuses one.  URLs are kept as the path strings the script
    writes. *)

From Stdlib Require Import String Ascii List Bool Arith Lia.
Import ListNotations.
Local Open Scope string_scope.
Local Open Scope list_scope.

(** ** Promises *)

Module Promise.

Inductive Error : Type :=
| TypeError           (* a network failure, or a response addAll refuses *)
| InvalidStateError   (* a batch that names the same request twice *)
| StorageError.       (* the cache storage could not be read or written *)

Inductive Settled (A : Type) : Type :=
| Resolved (a : A)
| Rejected (e : Error).
Arguments Resolved {A} a.
Arguments Rejected {A} e.

Definition is_rejected {A} (s : Settled A) : bool :=
  match s with Rejected _ => true | Resolved _ => false end.

Section Monad.
Variable W : Type.

Definition Promise (A : Type) : Type := W -> Settled A * W.

(* Promise.resolve(v) *)
Definition resolve {A} (a : A) : Promise A := fun w => (Resolved a, w).

(* Promise.reject(e) *)
Definition reject {A} (e : Error) : Promise A := fun w => (Rejected e, w).

(* p.then(f): f runs only when p resolves; a rejection of p is the
   rejection of the chain, and the state reached by p is kept. *)
Definition then_ {A B} (p : Promise A) (f : A -> Promise B) : Promise B :=
  fun w =>
    match p w with
    | (Resolved a, w') => f a w'
    | (Rejected e, w') => (Rejected e, w')
    end.
End Monad.

Arguments resolve {W A} a.
Arguments reject {W A} e.
Arguments then_ {W A B} p f.

End Promise.
Export Promise.

Notation "x <- p ;; k" := (then_ p (fun x => k))
  (at level 61, p at next level, right associativity).

(** ** The browser: requests, responses, cache storage, network *)

Module Host.

Record Request : Type := mkRequest {
  method      : string;
  url         : string;
  req_headers : list (string * string)
}.

Record Response : Type := mkResponse {
  status  : nat;
  headers : list (string * string);
  body    : string
}.

(* new Request(u): what addAll builds from a string, a GET without
   headers of its own *)
Definition GET (u : string) : Request :=
  {| method := "GET"; url := u; req_headers := [] |}.

(* A cache bucket: its entries, oldest first. *)
Definition Cache : Type := list (Request * Response).

(* The cache storage of the origin: named buckets, in creation order. *)
Definition CacheStorage : Type := list (string * Cache).

Inductive NetResult : Type :=
| NetResponse (r : Response)   (* any response, also 404 or 500 *)
| NetFailure.                  (* no response at all *)

(* What the script cannot control: how the network answers a request,
   given the requests sent before it; whether a storage operation fails;
   and, when a batch of fetches is aborted, which of its requests are
   aborted before they go out. *)
Record Env : Type := mkEnv {
  network     : list Request -> Request -> NetResult;
  open_fails  : string -> bool;
  match_fails : Request -> bool;
  write_fails : string -> bool;
  aborted     : Request -> bool
}.

(* What the script can change or cause: the stored entries, and the
   requests that went out to the network. *)
Record World : Type := mkWorld {
  storage : CacheStorage;
  net_log : list Request
}.

Definition log_request (q : Request) (w : World) : World :=
  {| storage := storage w; net_log := net_log w ++ [q] |}.

Definition set_storage (s : CacheStorage) (w : World) : World :=
  {| storage := s; net_log := net_log w |}.

Definition settle (r : NetResult) : Settled Response :=
  match r with
  | NetResponse resp => Resolved resp
  | NetFailure => Rejected TypeError
  end.

(* fetch(request): one request on the network; resolves with whatever
   response comes back, rejects when none does. *)
Definition fetch (e : Env) (q : Request) : Promise World Response :=
  fun w => (settle (network e (net_log w) q), log_request q w).

(* Header names compare without regard to case. *)
Definition lower_ascii (a : ascii) : ascii :=
  let n := nat_of_ascii a in
  if ((65 <=? n) && (n <=? 90))%nat then ascii_of_nat (n + 32) else a.

Fixpoint lower (s : string) : string :=
  match s with
  | EmptyString => EmptyString
  | String a rest => String (lower_ascii a) (lower rest)
  end.

(* The value of a header: the values given under that name, joined. *)
Definition header_value (name : string) (hs : list (string * string))
  : option string :=
  match map snd (filter (fun h => lower (fst h) =? lower name) hs) with
  | [] => None
  | vs => Some (String.concat ", " vs)
  end.

Definition is_blank (a : ascii) : bool :=
  ((a =? " ") || (a =? "009"))%char.

Fixpoint all_blank (s : string) : bool :=
  match s with
  | EmptyString => true
  | String a rest => is_blank a && all_blank rest
  end.

Fixpoint drop_blanks (s : string) : string :=
  match s with
  | EmptyString => EmptyString
  | String a rest => if is_blank a then drop_blanks rest else s
  end.

Fixpoint drop_trailing_blanks (s : string) : string :=
  match s with
  | EmptyString => EmptyString
  | String a rest =>
      if all_blank s then EmptyString else String a (drop_trailing_blanks rest)
  end.

Definition trim (s : string) : string := drop_trailing_blanks (drop_blanks s).

Fixpoint split_commas (s : string) : list string :=
  match s with
  | EmptyString => [EmptyString]
  | String a rest =>
      if (a =? ",")%char then EmptyString :: split_commas rest
      else match split_commas rest with
           | f :: fs => String a f :: fs
           | [] => [String a EmptyString]
           end
  end.

(* The header names a Vary header lists: a comma-separated list. *)
Definition vary_fields (r : Response) : list string :=
  match header_value "vary" (headers r) with
  | Some v =>
      filter (fun f => negb (f =? ""))
        (map (fun f => lower (trim f)) (split_commas v))
  | None => []
  end.

Definition same_header (f : string) (a b : Request) : bool :=
  match header_value f (req_headers a), header_value f (req_headers b) with
  | Some x, Some y => x =? y
  | None, None => true
  | _, _ => false
  end.

(* A stored entry matches a query when the query is a GET, the URLs are
   equal, and the query agrees with the stored request on every header
   the stored response varies on; an entry that varies on everything
   matches nothing (no match options are given by the script). *)
Definition request_matches (cached : Request) (response : Response)
    (query : Request) : bool :=
  (method query =? "GET") && (url cached =? url query) &&
  forallb (fun f => negb (f =? "*") && same_header f cached query)
    (vary_fields response).

Definition cache_match (c : Cache) (q : Request) : option Response :=
  match find (fun kv => request_matches (fst kv) (snd kv) q) c with
  | Some kv => Some (snd kv)
  | None => None
  end.

(* The first match over all buckets, in creation order. *)
Fixpoint storage_match (s : CacheStorage) (q : Request) : option Response :=
  match s with
  | [] => None
  | (_, c) :: rest =>
      match cache_match c q with
      | Some r => Some r
      | None => storage_match rest q
      end
  end.

(* caches.match(request) *)
Definition caches_match (e : Env) (q : Request)
  : Promise World (option Response) :=
  fun w =>
    if match_fails e q then (Rejected StorageError, w)
    else (Resolved (storage_match (storage w) q), w).

Fixpoint find_bucket (name : string) (s : CacheStorage) : option Cache :=
  match s with
  | [] => None
  | (n, c) :: rest => if n =? name then Some c else find_bucket name rest
  end.

(* The entry of one named bucket for a request, if any. *)
Definition bucket_lookup (s : CacheStorage) (name : string) (q : Request)
  : option Response :=
  match find_bucket name s with
  | Some c => cache_match c q
  | None => None
  end.

(* The storage once a bucket of that name exists: a missing bucket is
   created empty, after the existing ones. *)
Definition ensure_bucket (name : string) (w : World) : World :=
  match find_bucket name (storage w) with
  | Some _ => w
  | None => set_storage (storage w ++ [(name, [])]) w
  end.

(* caches.open(name): the bucket is created when it does not exist.  The
   cache object it resolves with is a reference to the bucket in the
   storage, here its name. *)
Definition caches_open (e : Env) (name : string) : Promise World string :=
  fun w =>
    if open_fails e name then (Rejected StorageError, w)
    else (Resolved name, ensure_bucket name w).

(* cache.put: a bucket keeps one entry per URL; a new entry replaces the
   entry stored for its URL, whatever headers that one varies on. *)
Definition cache_put (c : Cache) (kv : Request * Response) : Cache :=
  filter (fun old => negb (url (fst old) =? url (fst kv))) c ++ [kv].

Definition update_bucket (name : string) (f : Cache -> Cache)
    (s : CacheStorage) : CacheStorage :=
  map (fun nc => if fst nc =? name then (fst nc, f (snd nc)) else nc) s.

(* addAll stores a response only when its status is in 200..299 and is
   not 206, and its Vary header does not name "*". *)
Definition storable_status (n : nat) : bool :=
  ((200 <=? n) && (n <=? 299) && negb (n =? 206))%nat.

Definition varies_on_everything (r : Response) : bool :=
  existsb (String.eqb "*") (vary_fields r).

Definition storable (r : NetResult) : bool :=
  match r with
  | NetResponse resp =>
      storable_status (status resp) && negb (varies_on_everything resp)
  | NetFailure => false
  end.

(* The answers to the requests of a batch, each given after the requests
   before it in the batch. *)
Fixpoint answers (e : Env) (sent : list Request) (qs : list Request)
  : list NetResult :=
  match qs with
  | [] => []
  | q :: rest => network e sent q :: answers e (sent ++ [q]) rest
  end.

(* The fetches of an addAll batch.  When every answer is storable all the
   requests went out, in list order.  When one is refused the browser
   aborts the fetches still outstanding: only the requests that were not
   aborted went out. *)
Definition fetch_all (e : Env) (qs : list Request) (w : World)
  : list NetResult * World :=
  let rs := answers e (net_log w) qs in
  (rs,
   {| storage := storage w;
      net_log := net_log w ++
                 (if forallb storable rs then qs
                  else filter (fun q => negb (aborted e q)) qs) |}).

Fixpoint collect (rs : list NetResult) : option (list Response) :=
  match rs with
  | [] => Some []
  | NetResponse resp :: rest =>
      if storable (NetResponse resp) then
        match collect rest with
        | Some resps => Some (resp :: resps)
        | None => None
        end
      else None
  | NetFailure :: _ => None
  end.

Fixpoint has_duplicate (qs : list Request) : bool :=
  match qs with
  | [] => false
  | q :: rest => existsb (fun q' => url q =? url q') rest || has_duplicate rest
  end.

(* cache.addAll(urls): fetch every url; when every response is
   storable, write all the entries in one batch; otherwise reject and
   write nothing.  A batch that names one URL twice is refused. *)
Definition cache_addAll (e : Env) (cache : string) (urls : list string)
  : Promise World unit :=
  fun w =>
    let qs := map GET urls in
    let (rs, w1) := fetch_all e qs w in
    match collect rs with
    | None => (Rejected TypeError, w1)
    | Some resps =>
        if has_duplicate qs then (Rejected InvalidStateError, w1)
        else if write_fails e cache then (Rejected StorageError, w1)
        else (Resolved tt,
              set_storage
                (update_bucket cache
                   (fun c => fold_left cache_put (combine qs resps) c)
                   (storage w1))
                w1)
    end.

End Host.
Export Host.

(** ** The script *)

Module SW.

(* const CACHE_NAME = 'agrimarket-v1'; *)
Definition CACHE_NAME : string := "agrimarket-v1".

(* const urlsToCache = [ '/', '/static/css/*', '/static/media/*', '/images/*' ]; *)
Definition urlsToCache : list string :=
  [ "/"; "/static/css/*"; "/static/media/*"; "/images/*" ].

(* self.addEventListener('install', event => {
     event.waitUntil(
       caches.open(CACHE_NAME)
         .then(cache => cache.addAll(urlsToCache))
     );
   });
   The install succeeds when the promise given to waitUntil resolves and
   fails when it rejects. *)
Definition install_handler (e : Env) : Promise World unit :=
  cache <- caches_open e CACHE_NAME ;;
  cache_addAll e cache urlsToCache.

(* response || fetch(event.request): the lookup resolves with a Response
   object, which is truthy whatever its status, or with undefined, which
   is falsy. *)
Definition or_fetch (e : Env) (response : option Response) (q : Request)
  : Promise World Response :=
  match response with
  | Some r => resolve r
  | None => fetch e q
  end.

(* self.addEventListener('fetch', event => {
     event.respondWith(
       caches.match(event.request)
         .then(response => response || fetch(event.request))
     );
   });
   The page is answered with what the promise given to respondWith
   settles to. *)
Definition fetch_handler (e : Env) (request : Request)
  : Promise World Response :=
  response <- caches_match e request ;;
  or_fetch e response request.

(* The handler run for a sequence of intercepted requests, one after the
   other. *)
Fixpoint run_fetches (e : Env) (qs : list Request) (w : World)
  : list (Settled Response) * World :=
  match qs with
  | [] => ([], w)
  | q :: rest =>
      let (r, w') := fetch_handler e q w in
      let (rs, w'') := run_fetches e rest w' in
      (r :: rs, w'')
  end.

End SW.
Export SW.

(** ** Concrete browsers used in the examples *)

Module Examples.

Definition page (b : string) : Response :=
  {| status := 200; headers := [("content-type", "text/html")]; body := b |}.

Definition broken : Response :=
  {| status := 500; headers := []; body := "internal error" |}.

(* A network that answers every request with a fresh 200 page. *)
Definition online : Env :=
  {| network := fun _ q => NetResponse (page ("fresh " ++ url q)%string);
     open_fails := fun _ => false;
     match_fails := fun _ => false;
     write_fails := fun _ => false;
     aborted := fun _ => false |}.

(* No network at all. *)
Definition offline : Env :=
  {| network := fun _ _ => NetFailure;
     open_fails := fun _ => false;
     match_fails := fun _ => false;
     write_fails := fun _ => false;
     aborted := fun _ => false |}.

(* A network on which only the site root exists; when a batch is
   aborted, its request for the images does not go out. *)
Definition root_only : Env :=
  {| network := fun _ q =>
       if (url q =? "/")%string then NetResponse (page "index")
       else NetResponse {| status := 404; headers := []; body := "not found" |};
     open_fails := fun _ => false;
     match_fails := fun _ => false;
     write_fails := fun _ => false;
     aborted := fun q => (url q =? "/images/*")%string |}.

(* A storage that can be neither opened nor read. *)
Definition storage_down : Env :=
  {| network := fun _ q => NetResponse (page ("fresh " ++ url q)%string);
     open_fails := fun _ => true;
     match_fails := fun _ => true;
     write_fails := fun _ => true;
     aborted := fun _ => false |}.

(* The same network as [online] behind a storage that can be read but
   neither opened nor written. *)
Definition read_only : Env :=
  {| network := fun _ q => NetResponse (page ("fresh " ++ url q)%string);
     open_fails := fun _ => true;
     match_fails := fun _ => false;
     write_fails := fun _ => true;
     aborted := fun _ => false |}.

(* A server that negotiates on the request header x-k and says so. *)
Definition negotiated (b : string) : Response :=
  {| status := 200; headers := [("Vary", "Accept-Encoding, X-K")]; body := b |}.

Definition negotiating : Env :=
  {| network := fun _ q => NetResponse (negotiated ("fresh " ++ url q)%string);
     open_fails := fun _ => false;
     match_fails := fun _ => false;
     write_fails := fun _ => false;
     aborted := fun _ => false |}.

(* A server whose responses vary on everything. *)
Definition all_varying : Env :=
  {| network := fun _ q =>
       NetResponse {| status := 200; headers := [("vary", "*")];
                      body := ("fresh " ++ url q)%string |};
     open_fails := fun _ => false;
     match_fails := fun _ => false;
     write_fails := fun _ => false;
     aborted := fun _ => false |}.

(* A page asking for the site root with a header of its own. *)
Definition root_with_key : Request :=
  {| method := "GET"; url := "/"; req_headers := [("x-k", "b")] |}.

Definition empty_world : World := {| storage := []; net_log := [] |}.

(* The bucket of an earlier version of the script is still on disk, and
   the bucket of this version holds nothing. *)
Definition upgraded_world : World :=
  {| storage := [ ("agrimarket-v0", [ (GET "/app.js", page "old app") ]);
                  ("agrimarket-v1", []) ];
     net_log := [] |}.

(* The bucket of this version holds the root page and an error page. *)
Definition warm_world : World :=
  {| storage := [ ("agrimarket-v1",
                   [ (GET "/", page "index"); (GET "/report", broken) ]) ];
     net_log := [ GET "/earlier" ] |}.

End Examples.

(** ** Notions used to describe what the handlers leave behind *)

Module Described.

(* The entries of a bucket; none when the bucket does not exist. *)
Definition bucket_of (name : string) (s : CacheStorage) : Cache :=
  match find_bucket name s with
  | Some c => c
  | None => []
  end.

(* Whether an entry is keyed by one of the given URLs. *)
Definition listed (urls : list string) (kv : Request * Response) : bool :=
  existsb (String.eqb (url (fst kv))) urls.

(* Whether an intercepted request goes out to the network: its lookup
   resolves, with no match. *)
Definition misses (e : Env) (s : CacheStorage) (q : Request) : bool :=
  negb (match_fails e q) &&
  match storage_match s q with
  | Some _ => false
  | None => true
  end.

(* Whether a request carries none of the headers a response varies on,
   as the request addAll builds for an identifier does. *)
Definition unvaried (r : Response) (q : Request) : bool :=
  forallb
    (fun f =>
       match header_value f (req_headers q) with
       | None => true
       | Some _ => false
       end)
    (vary_fields r).

End Described.
Export Described.

(** ** The script as the browser drives it *)

Module Events.

(* The two events the script listens to:
   self.addEventListener('install', ...) and
   self.addEventListener('fetch', ...). *)
Inductive Event : Type :=
| InstallEvent
| FetchEvent (request : Request).

(* The browser calls the listener registered for the event; what the
   listener leaves behind is the state the next event finds. *)
Definition dispatch (e : Env) (ev : Event) (w : World) : World :=
  match ev with
  | InstallEvent => snd (install_handler e w)
  | FetchEvent request => snd (fetch_handler e request w)
  end.

(* A history of events, each arriving under the network and storage
   conditions of its moment. *)
Definition run_events (history : list (Env * Event)) (w : World) : World :=
  fold_left (fun w' ev => dispatch (fst ev) (snd ev) w') history w.

End Events.
Export Events.

Module Histories.

(* Install on a working network, browse offline, install again on a
   network where only the site root exists. *)
Definition upgrade_gone_wrong : list (Env * Event) :=
  [ (Examples.online, InstallEvent);
    (Examples.offline, FetchEvent (GET "/"));
    (Examples.offline, FetchEvent (GET "/market"));
    (Examples.root_only, InstallEvent) ].

End Histories.

(** ** The handlers on concrete browsers *)

Example install_online :
  install_handler Examples.online Examples.empty_world =
    (Resolved tt,
     {| storage :=
          [ ("agrimarket-v1",
             [ (GET "/", Examples.page "fresh /");
               (GET "/static/css/*", Examples.page "fresh /static/css/*");
               (GET "/static/media/*", Examples.page "fresh /static/media/*");
               (GET "/images/*", Examples.page "fresh /images/*") ]) ];
        net_log := [ GET "/"; GET "/static/css/*"; GET "/static/media/*";
                     GET "/images/*" ] |}).
Proof. reflexivity. Qed.

Example install_root_only :
  install_handler Examples.root_only Examples.empty_world =
    (Rejected TypeError,
     {| storage := [ ("agrimarket-v1", []) ];
        net_log := [ GET "/"; GET "/static/css/*"; GET "/static/media/*" ] |}).
Proof. reflexivity. Qed.

Example install_storage_down :
  install_handler Examples.storage_down Examples.warm_world =
    (Rejected StorageError, Examples.warm_world).
Proof. reflexivity. Qed.

Example fetch_cached_root_offline :
  fetch_handler Examples.offline (GET "/") Examples.warm_world =
    (Resolved (Examples.page "index"), Examples.warm_world).
Proof. reflexivity. Qed.

Example fetch_cached_error_page_online :
  fetch_handler Examples.online (GET "/report") Examples.warm_world =
    (Resolved Examples.broken, Examples.warm_world).
Proof. reflexivity. Qed.

Example fetch_uncached_offline :
  fetch_handler Examples.offline (GET "/market") Examples.warm_world =
    (Rejected TypeError, log_request (GET "/market") Examples.warm_world).
Proof. reflexivity. Qed.

Example fetch_post_goes_to_network :
  fetch_handler Examples.online {| method := "POST"; url := "/"; req_headers := [] |}
    Examples.warm_world =
    (Resolved (Examples.page "fresh /"),
     log_request {| method := "POST"; url := "/"; req_headers := [] |} Examples.warm_world).
Proof. reflexivity. Qed.

Example vary_fields_negotiated :
  vary_fields (Examples.negotiated "index") = [ "accept-encoding"; "x-k" ].
Proof. reflexivity. Qed.

Example install_all_varying :
  install_handler Examples.all_varying Examples.empty_world =
    (Rejected TypeError,
     {| storage := [ ("agrimarket-v1", []) ];
        net_log := [ GET "/"; GET "/static/css/*"; GET "/static/media/*";
                     GET "/images/*" ] |}).
Proof. reflexivity. Qed.

Example fetch_negotiated_without_header :
  fetch_handler Examples.offline (GET "/")
    (snd (install_handler Examples.negotiating Examples.empty_world)) =
    (Resolved (Examples.negotiated "fresh /"),
     snd (install_handler Examples.negotiating Examples.empty_world)).
Proof. reflexivity. Qed.

Example fetch_negotiated_with_header :
  fetch_handler Examples.offline Examples.root_with_key
    (snd (install_handler Examples.negotiating Examples.empty_world)) =
    (Rejected TypeError,
     log_request Examples.root_with_key
       (snd (install_handler Examples.negotiating Examples.empty_world))).
Proof. reflexivity. Qed.

(** ** The fetch interceptor *)

Section FetchInterceptor.

Variable e : Env.

Lemma fetch_handler_eq (q : Request) (w : World) :
  fetch_handler e q w =
    if match_fails e q then (Rejected StorageError, w)
    else match storage_match (storage w) q with
         | Some r => (Resolved r, w)
         | None => fetch e q w
         end.
Proof.
  unfold fetch_handler, then_, caches_match.
  destruct (match_fails e q); [reflexivity|].
  destruct (storage_match (storage w) q); reflexivity.
Qed.

Lemma caches_match_resolved (q : Request) (w : World) (o : option Response) :
  fst (caches_match e q w) = Resolved o <->
  match_fails e q = false /\ storage_match (storage w) q = o.
Proof.
  unfold caches_match. destruct (match_fails e q); simpl; split.
  - discriminate.
  - intros [H _]; discriminate.
  - intros H; injection H as ->; auto.
  - intros [_ ->]; reflexivity.
Qed.

Lemma caches_match_rejected (q : Request) (w : World) (err : Error) :
  fst (caches_match e q w) = Rejected err ->
  match_fails e q = true /\ err = StorageError.
Proof.
  unfold caches_match. destruct (match_fails e q); simpl.
  - intros H; injection H as <-; auto.
  - discriminate.
Qed.

Lemma fetch_handler_storage (q : Request) (w : World) :
  storage (snd (fetch_handler e q w)) = storage w.
Proof.
  rewrite fetch_handler_eq.
  destruct (match_fails e q); [reflexivity|].
  destruct (storage_match (storage w) q); reflexivity.
Qed.

Lemma run_fetches_storage (qs : list Request) :
  forall w, storage (snd (run_fetches e qs w)) = storage w.
Proof.
  induction qs as [|q qs IH]; intros w; simpl; [reflexivity|].
  destruct (fetch_handler e q w) as [r w'] eqn:Hq.
  specialize (IH w').
  destruct (run_fetches e qs w') as [rs w'']; simpl in *.
  rewrite IH.
  change w' with (snd (r, w')). rewrite <- Hq.
  apply fetch_handler_storage.
Qed.

Lemma fetch_handler_hit (q : Request) (w : World) (r : Response) :
  match_fails e q = false ->
  storage_match (storage w) q = Some r ->
  fetch_handler e q w = (Resolved r, w).
Proof. intros Hm Hs. rewrite fetch_handler_eq, Hm, Hs. reflexivity. Qed.

Lemma fetch_handler_miss (q : Request) (w : World) :
  match_fails e q = false ->
  storage_match (storage w) q = None ->
  fetch_handler e q w = (settle (network e (net_log w) q), log_request q w).
Proof. intros Hm Hs. rewrite fetch_handler_eq, Hm, Hs. reflexivity. Qed.

End FetchInterceptor.

Lemma app_one_neq {A} (l : list A) (x : A) : l ++ [x] <> l.
Proof.
  intros H. apply (f_equal (@length A)) in H.
  rewrite length_app in H. simpl in H. lia.
Qed.

(* When the bucket named CACHE_NAME is the only bucket of the origin, the
   lookup over the storage is the lookup in that bucket. *)
Lemma storage_match_single_bucket (c : Cache) (q : Request) :
  storage_match [(CACHE_NAME, c)] q = bucket_lookup [(CACHE_NAME, c)] CACHE_NAME q.
Proof.
  unfold bucket_lookup; simpl. destruct (cache_match c q); reflexivity.
Qed.

(** C1 (as amended): for every intercepted request whose lookup does not
    fail, the interceptor looks the request up in the cache storage of the
    origin, that is in every bucket in creation order and not only in the
    bucket named [CACHE_NAME]; when an entry matches it resolves with that
    entry and the browser is left as it was, and when none matches it
    performs one network fetch for the request and settles as that fetch
    does. *)
Theorem fetch_handler_cache_storage_first (e : Env) (q : Request) (w : World) :
  match_fails e q = false ->
  match storage_match (storage w) q with
  | Some r => fetch_handler e q w = (Resolved r, w)
  | None =>
      fetch_handler e q w = fetch e q w /\
      net_log (snd (fetch_handler e q w)) = net_log w ++ [q]
  end.
Proof.
  intros Hm. rewrite fetch_handler_eq, Hm.
  destruct (storage_match (storage w) q) as [r|]; [reflexivity|].
  split; reflexivity.
Qed.

Lemma fetch_handler_cache_storage_first_witness :
  fetch_handler Examples.online (GET "/app.js") Examples.upgraded_world
    = (Resolved (Examples.page "old app"), Examples.upgraded_world) /\
  net_log (snd (fetch_handler Examples.online (GET "/") Examples.upgraded_world))
    = [GET "/"].
Proof.
  split.
  - exact (fetch_handler_cache_storage_first Examples.online (GET "/app.js")
             Examples.upgraded_world eq_refl).
  - exact (proj2 (fetch_handler_cache_storage_first Examples.online (GET "/")
                    Examples.upgraded_world eq_refl)).
Defined.

(** C1 as the claim words it, refuted: the bucket named [CACHE_NAME] has no
    entry for the request, yet the interceptor performs no network fetch
    and does not resolve with what the fetch would return; it serves the
    entry of an older bucket. *)
Lemma named_cache_only_counterexample :
  bucket_lookup (storage Examples.upgraded_world) CACHE_NAME (GET "/app.js") = None /\
  fst (fetch_handler Examples.online (GET "/app.js") Examples.upgraded_world)
    = Resolved (Examples.page "old app") /\
  fst (fetch Examples.online (GET "/app.js") Examples.upgraded_world)
    = Resolved (Examples.page "fresh /app.js") /\
  fst (fetch_handler Examples.online (GET "/app.js") Examples.upgraded_world)
    <> fst (fetch Examples.online (GET "/app.js") Examples.upgraded_world) /\
  net_log (snd (fetch_handler Examples.online (GET "/app.js") Examples.upgraded_world))
    = net_log Examples.upgraded_world.
Proof.
  repeat split; try reflexivity.
  vm_compute. discriminate.
Qed.

(** C4: for every intercepted request whose lookup resolves with no match,
    the interceptor sends exactly one request to the network, the
    intercepted one, and settles as the network answers: the response that
    came back is the response served (status, headers and body are those
    of the network's response), and a network failure is the failure of
    the interceptor. *)
Theorem cache_miss_passes_network_through (e : Env) (q : Request) (w : World) :
  fst (caches_match e q w) = Resolved None ->
  net_log (snd (fetch_handler e q w)) = net_log w ++ [q] /\
  fst (fetch_handler e q w) = settle (network e (net_log w) q) /\
  (forall r, network e (net_log w) q = NetResponse r ->
     fst (fetch_handler e q w) = Resolved r).
Proof.
  intros H. apply caches_match_resolved in H as [Hm Hs].
  rewrite (fetch_handler_miss e q w Hm Hs). simpl.
  repeat split. intros r ->. reflexivity.
Qed.

Lemma cache_miss_passes_network_through_witness :
  net_log (snd (fetch_handler Examples.root_only (GET "/missing") Examples.warm_world))
    = [GET "/earlier"; GET "/missing"] /\
  fst (fetch_handler Examples.root_only (GET "/missing") Examples.warm_world)
    = Resolved {| status := 404; headers := []; body := "not found" |}.
Proof.
  destruct (cache_miss_passes_network_through Examples.root_only (GET "/missing")
              Examples.warm_world eq_refl) as [Hlog [Hres _]].
  split; [exact Hlog | exact Hres].
Defined.

(** C5: for every intercepted request, when the cache lookup itself fails
    the interceptor fails with the error of the lookup, and the browser is
    left as it was: nothing is sent to the network. *)
Theorem lookup_failure_is_not_recovered (e : Env) (q : Request) (w : World)
    (err : Error) :
  fst (caches_match e q w) = Rejected err ->
  fetch_handler e q w = (Rejected err, w) /\
  net_log (snd (fetch_handler e q w)) = net_log w.
Proof.
  intros H. apply caches_match_rejected in H as [Hm ->].
  rewrite fetch_handler_eq, Hm. split; reflexivity.
Qed.

Lemma lookup_failure_is_not_recovered_witness :
  fetch_handler Examples.storage_down (GET "/") Examples.warm_world
    = (Rejected StorageError, Examples.warm_world) /\
  net_log (snd (fetch_handler Examples.storage_down (GET "/") Examples.warm_world))
    = [GET "/earlier"].
Proof.
  exact (lookup_failure_is_not_recovered Examples.storage_down (GET "/")
           Examples.warm_world StorageError eq_refl).
Defined.



(** C8: handling an intercepted request never changes the cache storage:
    the stored buckets after the interceptor has run are the stored
    buckets before, whether the response came from the cache or from the
    network, for one request and for any sequence of requests. *)
Theorem fetch_handler_never_writes_cache (e : Env) (w : World) :
  (forall q, storage (snd (fetch_handler e q w)) = storage w) /\
  (forall qs, storage (snd (run_fetches e qs w)) = storage w).
Proof.
  split; intros; [apply fetch_handler_storage | apply run_fetches_storage].
Qed.

(** C9: the interceptor goes to the network exactly when the lookup
    resolves with no match; when the lookup resolves with any response,
    whatever its status, that response is served and the browser is left
    as it was. *)
Theorem network_fallback_iff_no_match (e : Env) (q : Request) (w : World) :
  (net_log (snd (fetch_handler e q w)) <> net_log w <->
   fst (caches_match e q w) = Resolved None) /\
  (forall r, fst (caches_match e q w) = Resolved (Some r) ->
     fetch_handler e q w = (Resolved r, w)).
Proof.
  split.
  - rewrite caches_match_resolved, fetch_handler_eq.
    destruct (match_fails e q); simpl.
    + split; [intros H; now elim H | intros [H _]; discriminate].
    + destruct (storage_match (storage w) q) as [r|]; simpl.
      * split; [intros H; now elim H | intros [_ H]; discriminate].
      * split; [auto | intros _; apply app_one_neq].
  - intros r H. apply caches_match_resolved in H as [Hm Hs].
    apply fetch_handler_hit; assumption.
Qed.

Lemma network_fallback_iff_no_match_witness :
  fetch_handler Examples.online (GET "/report") Examples.warm_world
    = (Resolved Examples.broken, Examples.warm_world) /\
  net_log (snd (fetch_handler Examples.online (GET "/market") Examples.warm_world))
    <> net_log Examples.warm_world.
Proof.
  split.
  - exact (proj2 (network_fallback_iff_no_match Examples.online (GET "/report")
                    Examples.warm_world) Examples.broken eq_refl).
  - exact (proj2 (proj1 (network_fallback_iff_no_match Examples.online
                           (GET "/market") Examples.warm_world)) eq_refl).
Defined.

(** C10: the response of the interceptor is a function of the cache
    storage, the request and the behaviour of the lookup and of the
    network on that request: two runs that agree on these settle alike,
    whatever else differs between them. *)
Theorem fetch_handler_deterministic (e1 e2 : Env) (w1 w2 : World) (q : Request) :
  storage w1 = storage w2 ->
  match_fails e1 q = match_fails e2 q ->
  network e1 (net_log w1) q = network e2 (net_log w2) q ->
  fst (fetch_handler e1 q w1) = fst (fetch_handler e2 q w2).
Proof.
  intros Hs Hm Hn. rewrite !fetch_handler_eq, Hs, Hm.
  destruct (match_fails e2 q); [reflexivity|].
  destruct (storage_match (storage w2) q); [reflexivity|].
  unfold fetch; simpl. rewrite Hn. reflexivity.
Qed.

Lemma fetch_handler_deterministic_witness :
  fst (fetch_handler Examples.online (GET "/fresh") Examples.warm_world)
  = fst (fetch_handler Examples.read_only (GET "/fresh")
           (log_request (GET "/other") Examples.warm_world)).
Proof.
  exact (fetch_handler_deterministic Examples.online Examples.read_only
           Examples.warm_world (log_request (GET "/other") Examples.warm_world)
           (GET "/fresh") eq_refl eq_refl eq_refl).
Defined.

(** ** Buckets and entries *)

Section CacheEntries.

Lemma request_matches_url (k : Request) (r : Response) (q : Request) :
  request_matches k r q = true -> url k = url q.
Proof.
  unfold request_matches. intros H.
  apply andb_prop in H as [H _]. apply andb_prop in H as [_ H].
  apply String.eqb_eq. exact H.
Qed.

Lemma cache_match_cons (k : Request) (v : Response) (c : Cache) (q : Request) :
  cache_match ((k, v) :: c) q =
    if request_matches k v q then Some v else cache_match c q.
Proof.
  unfold cache_match; simpl. destruct (request_matches k v q); reflexivity.
Qed.

Lemma cache_match_app (a b : Cache) (q : Request) :
  cache_match (a ++ b) q =
    match cache_match a q with
    | Some r => Some r
    | None => cache_match b q
    end.
Proof.
  induction a as [|[k v] a IH]; [reflexivity|].
  rewrite <- app_comm_cons, !cache_match_cons.
  destruct (request_matches k v q); [reflexivity | exact IH].
Qed.

(* Entries stored for other URLs do not answer a request. *)
Lemma cache_match_other_urls (c : Cache) (q : Request) :
  (forall kv, In kv c -> url (fst kv) <> url q) -> cache_match c q = None.
Proof.
  induction c as [|[k v] c IH]; intros H; [reflexivity|].
  rewrite cache_match_cons.
  destruct (request_matches k v q) eqn:E.
  - apply request_matches_url in E. elim (H (k, v)); [left; reflexivity | exact E].
  - apply IH. intros kv Hin. apply H. right. exact Hin.
Qed.

(* Removing entries stored for other URLs does not change the answer. *)
Lemma cache_match_filter (f : Request * Response -> bool) (c : Cache)
    (q : Request) :
  (forall kv, f kv = false -> url (fst kv) <> url q) ->
  cache_match (filter f c) q = cache_match c q.
Proof.
  intros H. induction c as [|[k v] c IH]; [reflexivity|].
  simpl filter. rewrite cache_match_cons.
  destruct (f (k, v)) eqn:Ef.
  - rewrite cache_match_cons, IH. reflexivity.
  - rewrite IH. destruct (request_matches k v q) eqn:E; [|reflexivity].
    apply request_matches_url in E. elim (H (k, v) Ef). exact E.
Qed.

(* After a put, the other URLs are answered as before. *)
Lemma cache_match_put_other (c : Cache) (kv : Request * Response) (q : Request) :
  url (fst kv) <> url q ->
  cache_match (cache_put c kv) q = cache_match c q.
Proof.
  intros Hn. unfold cache_put. rewrite cache_match_app, cache_match_filter.
  - destruct (cache_match c q); [reflexivity|].
    apply cache_match_other_urls. intros kv' [<-|[]]. exact Hn.
  - intros old Hf Heq. apply negb_false_iff, String.eqb_eq in Hf. congruence.
Qed.

(* A batch of puts changes the answer of a bucket only for the URLs of
   the batch. *)
Lemma cache_match_batch_frame (urls : list string) (q : Request) :
  ~ In (url q) urls ->
  forall resps c,
    cache_match (fold_left cache_put (combine (map GET urls) resps) c) q
    = cache_match c q.
Proof.
  induction urls as [|u0 urls IH]; intros Hn resps c; [reflexivity|].
  destruct resps as [|r0 resps]; [reflexivity|]. simpl.
  rewrite IH by (intros H; apply Hn; right; exact H).
  apply cache_match_put_other. simpl. intros E. apply Hn. left. exact E.
Qed.

(* A request that carries none of the headers a storable response varies
   on is answered by the entry an install stores for its URL. *)
Lemma request_matches_installed (u : string) (r : Response) (q : Request) :
  method q = "GET" -> url q = u ->
  storable (NetResponse r) = true -> unvaried r q = true ->
  request_matches (GET u) r q = true.
Proof.
  intros Hm Hu Hs Hv. unfold request_matches.
  rewrite Hm, Hu. simpl. rewrite String.eqb_refl. simpl.
  simpl in Hs. apply andb_prop in Hs as [_ Hs]. apply negb_true_iff in Hs.
  unfold varies_on_everything in Hs. unfold unvaried in Hv.
  rewrite forallb_forall in Hv |- *. intros f Hf.
  apply andb_true_intro. split.
  - apply negb_true_iff. rewrite String.eqb_sym.
    destruct ("*" =? f)%string eqn:E; [|reflexivity].
    assert (Hex : existsb (String.eqb "*") (vary_fields r) = true)
      by (apply existsb_exists; exists f; split; assumption).
    congruence.
  - specialize (Hv f Hf). unfold same_header. simpl.
    destruct (header_value f (req_headers q)); [discriminate | reflexivity].
Qed.

Lemma unvaried_GET (r : Response) (u : string) : unvaried r (GET u) = true.
Proof. unfold unvaried. apply forallb_forall. intros f _. reflexivity. Qed.

Lemma find_bucket_app (name : string) (s t : CacheStorage) :
  find_bucket name (s ++ t) =
    match find_bucket name s with
    | Some c => Some c
    | None => find_bucket name t
    end.
Proof.
  induction s as [|[n c] s IH]; simpl; [reflexivity|].
  destruct (n =? name)%string; [reflexivity | exact IH].
Qed.

Lemma find_bucket_update_any (name name' : string) (f : Cache -> Cache)
    (s : CacheStorage) :
  find_bucket name' (update_bucket name f s) =
    option_map (fun c => if (name =? name')%string then f c else c)
      (find_bucket name' s).
Proof.
  induction s as [|[n c] s IH]; simpl; [reflexivity|].
  destruct (n =? name)%string eqn:E; simpl;
    destruct (n =? name')%string eqn:E'; simpl; try exact IH.
  - apply String.eqb_eq in E, E'. subst. rewrite String.eqb_refl. reflexivity.
  - apply String.eqb_eq in E'. subst n. rewrite String.eqb_sym, E. reflexivity.
Qed.

Lemma find_bucket_In (name : string) (s : CacheStorage) (c : Cache) :
  find_bucket name s = Some c -> In (name, c) s.
Proof.
  induction s as [|[n c0] s IH]; simpl; [discriminate|].
  destruct (n =? name)%string eqn:E.
  - intros H. injection H as ->. apply String.eqb_eq in E. subst. left. reflexivity.
  - intros H. right. apply IH. exact H.
Qed.

(* An answer of a bucket is the response of one of its entries, stored
   for the URL asked. *)
Lemma cache_match_entry (c : Cache) (q : Request) (r : Response) :
  cache_match c q = Some r -> exists k, In (k, r) c /\ url k = url q.
Proof.
  unfold cache_match.
  destruct (find (fun kv => request_matches (fst kv) (snd kv) q) c)
    as [[k v]|] eqn:E; [|discriminate].
  intros H. injection H as <-. apply find_some in E as [Hin Hm].
  exists k. split; [exact Hin | exact (request_matches_url _ _ _ Hm)].
Qed.

(* An answer of the storage is the response of an entry of one of its
   buckets, stored for the URL asked. *)
Lemma storage_match_entry (s : CacheStorage) (q : Request) (r : Response) :
  storage_match s q = Some r ->
  exists name c k, In (name, c) s /\ In (k, r) c /\ url k = url q.
Proof.
  induction s as [|[n c] s IH]; simpl; [discriminate|].
  destruct (cache_match c q) as [r0|] eqn:E.
  - intros H. injection H as <-.
    destruct (cache_match_entry c q r0 E) as [k [Hin Hu]].
    exists n, c, k. auto.
  - intros H. destruct (IH H) as [n' [c' [k [H1 [H2 H3]]]]].
    exists n', c', k. auto.
Qed.

(* Whatever the bucket order, an entry of the updated bucket that answers
   a request makes the lookup over the whole storage succeed. *)
Lemma storage_match_update (name : string) (f : Cache -> Cache) (q : Request) :
  forall (s : CacheStorage) (c : Cache) (v : Response),
    find_bucket name s = Some c ->
    cache_match (f c) q = Some v ->
    exists r, storage_match (update_bucket name f s) q = Some r.
Proof.
  induction s as [|[n c0] s IH]; intros c v Hf Hc; [discriminate|].
  simpl in *. destruct (n =? name)%string eqn:E; simpl.
  - injection Hf as ->. rewrite Hc. eauto.
  - destruct (cache_match c0 q) as [r|]; eauto.
Qed.

Lemma bucket_lookup_ensure (n : string) (w : World) (name : string) (q : Request) :
  bucket_lookup (storage (ensure_bucket n w)) name q
  = bucket_lookup (storage w) name q.
Proof.
  unfold ensure_bucket.
  destruct (find_bucket n (storage w)) as [c|] eqn:E; [reflexivity|].
  unfold bucket_lookup; simpl. rewrite find_bucket_app.
  destruct (find_bucket name (storage w)) as [c|] eqn:E'; [reflexivity|].
  simpl. destruct (n =? name)%string; reflexivity.
Qed.

Lemma net_log_ensure (n : string) (w : World) :
  net_log (ensure_bucket n w) = net_log w.
Proof.
  unfold ensure_bucket. destruct (find_bucket n (storage w)); reflexivity.
Qed.

End CacheEntries.

(** ** What a batch of puts leaves in a bucket *)

Section BatchContents.

Lemma cache_put_GET (c : Cache) (u : string) (v : Response) :
  cache_put c (GET u, v)
  = filter (fun kv => negb (url (fst kv) =? u)%string) c ++ [(GET u, v)].
Proof. reflexivity. Qed.

Lemma filter_unlisted_nil (c : Cache) :
  filter (fun kv => negb (listed [] kv)) c = c.
Proof.
  induction c as [|kv c IH]; simpl; [reflexivity|]. f_equal. exact IH.
Qed.

Lemma filter_unlisted_cons (u : string) (urls : list string) (c : Cache) :
  filter (fun kv => negb (listed urls kv))
    (filter (fun kv => negb (url (fst kv) =? u)%string) c)
  = filter (fun kv => negb (listed (u :: urls) kv)) c.
Proof.
  induction c as [|kv c IH]; simpl; [reflexivity|].
  destruct (url (fst kv) =? u)%string; simpl; [exact IH|].
  destruct (listed urls kv); simpl; [exact IH | rewrite IH; reflexivity].
Qed.

Lemma listed_url (urls : list string) (kv : Request * Response) :
  listed urls kv = true <-> In (url (fst kv)) urls.
Proof.
  unfold listed. rewrite existsb_exists. split.
  - intros [x [Hx E]]. apply String.eqb_eq in E. subst x. exact Hx.
  - intros H. exists (url (fst kv)). split; [exact H | apply String.eqb_refl].
Qed.

Lemma listed_GET (urls : list string) (u : string) (v : Response) :
  listed urls (GET u, v) = true <-> In u urls.
Proof. apply listed_url. Qed.

(* The entries keyed outside the batch stay, in their order; the entries
   of the batch follow, in the order of the batch. *)
Lemma fold_cache_put_contents (urls : list string) :
  NoDup urls ->
  forall resps c, length resps = length urls ->
    fold_left cache_put (combine (map GET urls) resps) c
    = filter (fun kv => negb (listed urls kv)) c ++ combine (map GET urls) resps.
Proof.
  induction 1 as [|u0 urls Hnin Hnd IH]; intros resps c Hlen.
  - cbn [map combine fold_left]. rewrite filter_unlisted_nil, app_nil_r.
    reflexivity.
  - destruct resps as [|r0 resps]; [discriminate|].
    cbn [map combine fold_left].
    rewrite IH by (simpl in Hlen; lia).
    rewrite cache_put_GET, filter_app, filter_unlisted_cons.
    cbn [filter].
    destruct (listed urls (GET u0, r0)) eqn:E.
    + apply listed_GET in E. contradiction.
    + simpl. rewrite <- app_assoc. reflexivity.
Qed.

Lemma filter_idempotent {A} (f : A -> bool) (l : list A) :
  filter f (filter f l) = filter f l.
Proof.
  induction l as [|x l IH]; simpl; [reflexivity|].
  destruct (f x) eqn:E; simpl; [rewrite E, IH; reflexivity | exact IH].
Qed.

Lemma filter_unlisted_batch (urls : list string) (resps : list Response) :
  filter (fun kv => negb (listed urls kv)) (combine (map GET urls) resps) = [].
Proof.
  assert (H : forall kv, In kv (combine (map GET urls) resps) ->
                         listed urls kv = true).
  { intros [k v] Hin. apply in_combine_l in Hin.
    apply in_map_iff in Hin as [u [<- Hu]]. apply listed_GET. exact Hu. }
  induction (combine (map GET urls) resps) as [|kv l IH]; simpl; [reflexivity|].
  rewrite (H kv) by (left; reflexivity). simpl.
  apply IH. intros kv' Hin. apply H. right. exact Hin.
Qed.

(* Putting the same batch twice is putting it once. *)
Lemma fold_cache_put_twice (urls : list string) (resps : list Response) (c : Cache) :
  NoDup urls -> length resps = length urls ->
  fold_left cache_put (combine (map GET urls) resps)
    (fold_left cache_put (combine (map GET urls) resps) c)
  = fold_left cache_put (combine (map GET urls) resps) c.
Proof.
  intros Hnd Hlen. rewrite !fold_cache_put_contents by assumption.
  rewrite filter_app, filter_idempotent, filter_unlisted_batch, app_nil_r.
  reflexivity.
Qed.

Lemma combine_app {A B} (a : list A) (a' : list B) (b : list A) (b' : list B) :
  length a = length a' ->
  combine (a ++ b) (a' ++ b') = combine a a' ++ combine b b'.
Proof.
  revert a'. induction a as [|x a IH]; intros [|y a'] H; try discriminate.
  - reflexivity.
  - simpl. rewrite IH by (simpl in H; lia). reflexivity.
Qed.

(* The entry a batch leaves for one of its URLs holds the response paired
   with that URL, and answers every request for the URL that carries
   none of the headers the response varies on. *)
Lemma cache_match_batch_entry (l1 l2 : list string) (u : string)
    (rs1 rs2 : list Response) (r : Response) (c : Cache) (q : Request) :
  NoDup (l1 ++ u :: l2) ->
  length l1 = length rs1 -> length l2 = length rs2 ->
  method q = "GET" -> url q = u ->
  storable (NetResponse r) = true -> unvaried r q = true ->
  cache_match
    (fold_left cache_put (combine (map GET (l1 ++ u :: l2)) (rs1 ++ r :: rs2)) c)
    q
  = Some r.
Proof.
  intros Hnd H1 H2 Hm Hu Hs Hv.
  rewrite fold_cache_put_contents;
    [|exact Hnd | rewrite !length_app; simpl; lia].
  rewrite cache_match_app, cache_match_other_urls.
  - rewrite map_app, combine_app by (rewrite length_map; exact H1).
    rewrite cache_match_app, cache_match_other_urls.
    + simpl. rewrite cache_match_cons.
      rewrite (request_matches_installed u r q Hm Hu Hs Hv). reflexivity.
    + intros [k v] Hin Heq. apply in_combine_l in Hin.
      apply in_map_iff in Hin as [u' [<- Hu']]. simpl in Heq.
      apply NoDup_remove_2 in Hnd. apply Hnd.
      apply in_or_app. left. congruence.
  - intros kv Hin Heq. apply filter_In in Hin as [_ Hf].
    apply negb_true_iff in Hf.
    assert (Hl : listed (l1 ++ u :: l2) kv = true).
    { apply listed_url. rewrite Heq, Hu. apply in_or_app. right. left.
      reflexivity. }
    congruence.
Qed.

Lemma update_bucket_idempotent (name : string) (f : Cache -> Cache)
    (s : CacheStorage) :
  (forall c, f (f c) = f c) ->
  update_bucket name f (update_bucket name f s) = update_bucket name f s.
Proof.
  intros Hf. induction s as [|[n c] s IH]; simpl; [reflexivity|].
  rewrite IH. destruct (n =? name)%string eqn:E; simpl; rewrite E;
    [rewrite Hf|]; reflexivity.
Qed.

Lemma urlsToCache_NoDup : NoDup urlsToCache.
Proof. repeat constructor; simpl; intuition discriminate. Qed.

End BatchContents.

(** ** The install handler *)

Section Install.

Variable e : Env.

Lemma fetch_all_storage (qs : list Request) (w : World) :
  storage (snd (fetch_all e qs w)) = storage w.
Proof. reflexivity. Qed.

(* When every answer is storable the whole batch went out. *)
Lemma fetch_all_log (qs : list Request) (w : World) :
  forallb storable (fst (fetch_all e qs w)) = true ->
  net_log (snd (fetch_all e qs w)) = net_log w ++ qs.
Proof. unfold fetch_all; simpl. intros ->. reflexivity. Qed.

(* The requests of a batch that went out, in full. *)
Lemma fetch_all_sent (qs : list Request) (w : World) :
  net_log (snd (fetch_all e qs w)) =
    net_log w ++
    (if forallb storable (fst (fetch_all e qs w)) then qs
     else filter (fun q => negb (aborted e q)) qs).
Proof. reflexivity. Qed.

(* The answers of a batch depend on the requests sent before it and on
   nothing else in the browser. *)
Lemma fetch_all_results (qs : list Request) (w w' : World) :
  net_log w = net_log w' ->
  fst (fetch_all e qs w) = fst (fetch_all e qs w').
Proof. unfold fetch_all; simpl. intros ->. reflexivity. Qed.

Lemma answers_length (qs : list Request) :
  forall sent, length (answers e sent qs) = length qs.
Proof.
  induction qs as [|q qs IH]; intros sent; simpl; [reflexivity|].
  rewrite IH. reflexivity.
Qed.

Lemma fetch_all_length (qs : list Request) (w : World) :
  length (fst (fetch_all e qs w)) = length qs.
Proof. apply answers_length. Qed.

Lemma answers_app (a b : list Request) :
  forall sent,
    answers e sent (a ++ b) = answers e sent a ++ answers e (sent ++ a) b.
Proof.
  induction a as [|q a IH]; intros sent; simpl.
  - rewrite app_nil_r. reflexivity.
  - rewrite IH, <- app_assoc. reflexivity.
Qed.

(* The answer to one request of a batch is the answer of the network
   after the requests of the batch before it. *)
Lemma fetch_all_split (a b : list Request) (q : Request) (w : World) :
  exists ra rb,
    fst (fetch_all e (a ++ q :: b) w)
    = ra ++ network e (net_log w ++ a) q :: rb /\
    length ra = length a /\ length rb = length b.
Proof.
  exists (answers e (net_log w) a),
         (answers e ((net_log w ++ a) ++ [q]) b).
  unfold fetch_all; simpl. rewrite answers_app. simpl.
  rewrite !answers_length. auto.
Qed.

Lemma collect_forallb (rs : list NetResult) :
  collect rs = None <-> forallb storable rs = false.
Proof.
  induction rs as [|r rs IH].
  - simpl. split; discriminate.
  - cbn [collect forallb]. destruct r as [resp|].
    + destruct (storable (NetResponse resp)); cbn [andb]; [|tauto].
      rewrite <- IH. destruct (collect rs); split; congruence.
    + cbn [storable andb]. tauto.
Qed.

Lemma collect_none (rs : list NetResult) :
  Exists (fun r => storable r = false) rs -> collect rs = None.
Proof.
  intros H. apply collect_forallb.
  destruct (forallb storable rs) eqn:E; [|reflexivity].
  rewrite forallb_forall in E. apply Exists_exists in H as [r [Hin Hr]].
  rewrite (E r Hin) in Hr. discriminate.
Qed.

Lemma collect_some (rs : list NetResult) :
  forall resps, collect rs = Some resps ->
    rs = map NetResponse resps /\ Forall (fun r => storable r = true) rs.
Proof.
  induction rs as [|r rs IH]; intros resps H; cbn [collect] in H.
  - injection H as <-. split; [reflexivity | constructor].
  - destruct r as [resp|]; [|discriminate].
    destruct (storable (NetResponse resp)) eqn:Hs; [|discriminate].
    destruct (collect rs) as [resps'|]; [|discriminate].
    injection H as <-. destruct (IH resps' eq_refl) as [-> HF].
    split; [reflexivity | constructor; [exact Hs | exact HF]].
Qed.

Lemma collect_some_forallb (rs : list NetResult) (resps : list Response) :
  collect rs = Some resps -> forallb storable rs = true.
Proof.
  intros H. destruct (forallb storable rs) eqn:E; [reflexivity|].
  apply collect_forallb in E. congruence.
Qed.

Lemma install_handler_eq (w : World) :
  install_handler e w =
    if open_fails e CACHE_NAME then (Rejected StorageError, w)
    else cache_addAll e CACHE_NAME urlsToCache (ensure_bucket CACHE_NAME w).
Proof.
  unfold install_handler, then_, caches_open.
  destruct (open_fails e CACHE_NAME); reflexivity.
Qed.

(* What a run of addAll leaves behind, by outcome. *)
Lemma cache_addAll_cases (cache : string) (urls : list string) (w : World) :
  let rs := fst (fetch_all e (map GET urls) w) in
  let w1 := snd (fetch_all e (map GET urls) w) in
  (exists err, cache_addAll e cache urls w = (Rejected err, w1)) \/
  (exists resps,
      collect rs = Some resps /\
      cache_addAll e cache urls w =
        (Resolved tt,
         set_storage
           (update_bucket cache
              (fun c => fold_left cache_put (combine (map GET urls) resps) c)
              (storage w1))
           w1)).
Proof.
  unfold cache_addAll. cbv zeta.
  destruct (fetch_all e (map GET urls) w) as [rs w1]; cbn [fst snd].
  destruct (collect rs) as [resps|]; [|left; eauto].
  destruct (has_duplicate (map GET urls)); [left; eauto|].
  destruct (write_fails e cache); [left; eauto|].
  right. eauto.
Qed.

Lemma cache_addAll_unstorable (cache : string) (urls : list string) (w : World) :
  Exists (fun r => storable r = false) (fst (fetch_all e (map GET urls) w)) ->
  fst (cache_addAll e cache urls w) = Rejected TypeError.
Proof.
  intros H. apply collect_none in H. unfold cache_addAll. cbv zeta.
  destruct (fetch_all e (map GET urls) w) as [rs w1]; cbn [fst snd] in *.
  rewrite H. reflexivity.
Qed.

Lemma cache_addAll_outcome (cache : string) (urls : list string) (w : World) :
  has_duplicate (map GET urls) = false ->
  fst (cache_addAll e cache urls w) =
    if forallb storable (fst (fetch_all e (map GET urls) w)) then
      if write_fails e cache then Rejected StorageError else Resolved tt
    else Rejected TypeError.
Proof.
  intros Hd. unfold cache_addAll. cbv zeta.
  destruct (fetch_all e (map GET urls) w) as [rs w1]; cbn [fst].
  destruct (collect rs) as [resps|] eqn:Hc.
  - rewrite (collect_some_forallb rs resps Hc), Hd.
    destruct (write_fails e cache); reflexivity.
  - apply collect_forallb in Hc. rewrite Hc. reflexivity.
Qed.

Lemma cache_addAll_log (cache : string) (urls : list string) (w : World) :
  net_log (snd (cache_addAll e cache urls w))
  = net_log (snd (fetch_all e (map GET urls) w)).
Proof.
  destruct (cache_addAll_cases cache urls w) as [[err ->]|[resps [_ ->]]];
    reflexivity.
Qed.

Lemma install_fetch_results (w : World) :
  fst (fetch_all e (map GET urlsToCache) (ensure_bucket CACHE_NAME w))
  = fst (fetch_all e (map GET urlsToCache) w).
Proof. apply fetch_all_results, net_log_ensure. Qed.

(* The requests an install sends: none when the bucket cannot be opened;
   one per entry of the list, in the order of the list, when every answer
   is storable; otherwise those of the list that were not aborted. *)
Lemma install_handler_log (w : World) :
  net_log (snd (install_handler e w)) =
    net_log w ++
    (if open_fails e CACHE_NAME then []
     else if forallb storable (fst (fetch_all e (map GET urlsToCache) w))
          then map GET urlsToCache
          else filter (fun q => negb (aborted e q)) (map GET urlsToCache)).
Proof.
  rewrite install_handler_eq.
  destruct (open_fails e CACHE_NAME); [simpl; now rewrite app_nil_r|].
  rewrite cache_addAll_log, fetch_all_sent, install_fetch_results, net_log_ensure.
  reflexivity.
Qed.

(* The storage an install leaves, by outcome. *)
Lemma install_handler_storage (w : World) :
  storage (snd (install_handler e w)) = storage w \/
  storage (snd (install_handler e w)) = storage (ensure_bucket CACHE_NAME w) \/
  exists resps,
    fst (install_handler e w) = Resolved tt /\
    fst (fetch_all e (map GET urlsToCache) w) = map NetResponse resps /\
    length resps = length urlsToCache /\
    storage (snd (install_handler e w)) =
      update_bucket CACHE_NAME
        (fun c => fold_left cache_put (combine (map GET urlsToCache) resps) c)
        (storage (ensure_bucket CACHE_NAME w)).
Proof.
  rewrite install_handler_eq.
  destruct (open_fails e CACHE_NAME); [left; reflexivity|]. right.
  pose proof (fetch_all_length (map GET urlsToCache) w) as Hlen.
  destruct (cache_addAll_cases CACHE_NAME urlsToCache
              (ensure_bucket CACHE_NAME w)) as [[err Hc]|[resps [Hcol Hc]]];
    rewrite Hc; cbn [fst snd storage set_storage]; rewrite fetch_all_storage.
  - left. reflexivity.
  - right. exists resps. split; [reflexivity|].
    rewrite install_fetch_results in Hcol.
    apply collect_some in Hcol as [Hmap _].
    split; [exact Hmap|]. split; [|reflexivity].
    rewrite Hmap, !length_map in Hlen. exact Hlen.
Qed.

Lemma install_handler_resolved_storage (w : World) :
  fst (install_handler e w) = Resolved tt ->
  exists resps,
    collect (fst (fetch_all e (map GET urlsToCache) w)) = Some resps /\
    fst (fetch_all e (map GET urlsToCache) w) = map NetResponse resps /\
    length resps = length urlsToCache /\
    storage (snd (install_handler e w)) =
      update_bucket CACHE_NAME
        (fun c => fold_left cache_put (combine (map GET urlsToCache) resps) c)
        (storage (ensure_bucket CACHE_NAME w)).
Proof.
  rewrite install_handler_eq. intros H.
  destruct (open_fails e CACHE_NAME); [discriminate|].
  pose proof (fetch_all_length (map GET urlsToCache) w) as Hlen.
  destruct (cache_addAll_cases CACHE_NAME urlsToCache
              (ensure_bucket CACHE_NAME w)) as [[err Hc]|[resps [Hcol Hc]]];
    rewrite Hc in H |- *; cbn [fst snd storage set_storage] in H |- *;
    [discriminate|].
  rewrite install_fetch_results in Hcol.
  exists resps. split; [exact Hcol|].
  apply collect_some in Hcol as [Hmap _]. split; [exact Hmap|]. split.
  - rewrite Hmap, !length_map in Hlen. exact Hlen.
  - rewrite fetch_all_storage. reflexivity.
Qed.

(* A failed install adds no entry to any bucket. *)
Lemma install_handler_rejected_entries (w : World) :
  is_rejected (fst (install_handler e w)) = true ->
  forall name q,
    bucket_lookup (storage (snd (install_handler e w))) name q
    = bucket_lookup (storage w) name q.
Proof.
  intros H name q.
  destruct (install_handler_storage w) as [->|[->|[resps [Hok _]]]].
  - reflexivity.
  - apply bucket_lookup_ensure.
  - rewrite Hok in H. discriminate.
Qed.

(* An install leaves the answers of every bucket for the other URLs as
   they were. *)
Lemma install_handler_other_entries (w : World) (q : Request) :
  ~ In (url q) urlsToCache ->
  forall name,
    bucket_lookup (storage (snd (install_handler e w))) name q
    = bucket_lookup (storage w) name q.
Proof.
  intros Hq name.
  rewrite <- (bucket_lookup_ensure CACHE_NAME w name).
  destruct (install_handler_storage w) as [->|[->|[resps [_ [_ [_ ->]]]]]].
  - symmetry. apply bucket_lookup_ensure.
  - reflexivity.
  - unfold bucket_lookup. rewrite find_bucket_update_any.
    destruct (find_bucket name (storage (ensure_bucket CACHE_NAME w))) as [c|];
      [|reflexivity].
    cbn [option_map]. destruct (CACHE_NAME =? name)%string; [|reflexivity].
    apply cache_match_batch_frame. exact Hq.
Qed.

(* After a successful install, the responses stored, split at one
   identifier of the list. *)
Lemma install_handler_resolved_split (w : World) (l1 l2 : list string)
    (u : string) :
  fst (install_handler e w) = Resolved tt ->
  urlsToCache = l1 ++ u :: l2 ->
  exists rs1 r rs2,
    network e (net_log w ++ map GET l1) (GET u) = NetResponse r /\
    storable (NetResponse r) = true /\
    length l1 = length rs1 /\ length l2 = length rs2 /\
    fst (fetch_all e (map GET urlsToCache) w)
    = map NetResponse (rs1 ++ r :: rs2) /\
    storage (snd (install_handler e w)) =
      update_bucket CACHE_NAME
        (fun c => fold_left cache_put
                    (combine (map GET (l1 ++ u :: l2)) (rs1 ++ r :: rs2)) c)
        (storage (ensure_bucket CACHE_NAME w)).
Proof.
  intros Hok Hsplit.
  destruct (install_handler_resolved_storage w Hok)
    as [resps [Hcol [Hmap [_ Hst]]]].
  apply collect_some in Hcol as [_ Hall].
  pose proof Hmap as Hmap0.
  rewrite Hsplit in Hmap, Hst, Hall.
  rewrite map_app in Hmap, Hall. simpl map in Hmap, Hall.
  destruct (fetch_all_split (map GET l1) (map GET l2) (GET u) w)
    as [ra [rb [Hres [Hla Hlb]]]].
  rewrite Hres in Hmap, Hall. symmetry in Hmap.
  apply map_eq_app in Hmap as [rs1 [rest [-> [H1 H2]]]].
  apply map_eq_cons in H2 as [r [rs2 [-> [Hr H3]]]].
  exists rs1, r, rs2. split; [symmetry; exact Hr|]. split.
  { rewrite Forall_forall in Hall. rewrite Hr. apply Hall.
    apply in_or_app. right. left. reflexivity. }
  split.
  { rewrite <- H1, !length_map in Hla. symmetry. exact Hla. }
  split.
  { rewrite <- H3, !length_map in Hlb. symmetry. exact Hlb. }
  split; [exact Hmap0 | exact Hst].
Qed.

End Install.

Lemma urlsToCache_requests_NoDup : NoDup (map GET urlsToCache).
Proof.
  repeat constructor; simpl; intuition discriminate.
Qed.

Section InstalledEntries.

Variable e : Env.

Lemma find_bucket_ensure_other (n name : string) (w : World) :
  name <> n ->
  find_bucket name (storage (ensure_bucket n w)) = find_bucket name (storage w).
Proof.
  intros Hn. unfold ensure_bucket.
  destruct (find_bucket n (storage w)); [reflexivity|].
  simpl. rewrite find_bucket_app.
  destruct (find_bucket name (storage w)); [reflexivity|]. simpl.
  destruct (n =? name)%string eqn:E; [|reflexivity].
  apply String.eqb_eq in E. congruence.
Qed.

Lemma find_bucket_ensure_same (n : string) (w : World) :
  find_bucket n (storage (ensure_bucket n w)) = Some (bucket_of n (storage w)).
Proof.
  unfold ensure_bucket, bucket_of.
  destruct (find_bucket n (storage w)) as [c|] eqn:E; [exact E|].
  simpl. rewrite find_bucket_app, E. simpl. rewrite String.eqb_refl. reflexivity.
Qed.

(* After a successful install: the entry stored for an identifier of the
   list, and the requests it answers. *)
Lemma install_handler_resolved_entry (w : World) (u : string) :
  fst (install_handler e w) = Resolved tt ->
  In u urlsToCache ->
  exists r,
    storable (NetResponse r) = true /\
    In (NetResponse r) (fst (fetch_all e (map GET urlsToCache) w)) /\
    In (GET u, r) (bucket_of CACHE_NAME (storage (snd (install_handler e w)))) /\
    forall q,
      method q = "GET" -> url q = u -> unvaried r q = true ->
      bucket_lookup (storage (snd (install_handler e w))) CACHE_NAME q = Some r /\
      exists r', storage_match (storage (snd (install_handler e w))) q = Some r'.
Proof.
  intros Hok Hu.
  destruct (in_split u urlsToCache Hu) as [l1 [l2 Hsplit]].
  destruct (install_handler_resolved_split e w l1 l2 u Hok Hsplit)
    as [rs1 [r [rs2 [_ [Hsto [H1 [H2 [Hmap Hst]]]]]]]].
  assert (Hnd : NoDup (l1 ++ u :: l2))
    by (rewrite <- Hsplit; exact urlsToCache_NoDup).
  assert (Hfind : find_bucket CACHE_NAME (storage (snd (install_handler e w)))
                  = Some (fold_left cache_put
                            (combine (map GET (l1 ++ u :: l2)) (rs1 ++ r :: rs2))
                            (bucket_of CACHE_NAME (storage w)))).
  { rewrite Hst, find_bucket_update_any, find_bucket_ensure_same.
    cbn [option_map]. rewrite String.eqb_refl. reflexivity. }
  exists r. split; [exact Hsto|]. split.
  { rewrite Hmap. apply in_map, in_or_app. right. left. reflexivity. }
  split.
  { unfold bucket_of. rewrite Hfind.
    rewrite fold_cache_put_contents;
      [|exact Hnd | rewrite !length_app; simpl; lia].
    apply in_or_app. right.
    rewrite map_app, combine_app by (rewrite length_map; exact H1).
    apply in_or_app. right. left. reflexivity. }
  intros q Hm Hq Hv. split.
  - unfold bucket_lookup. rewrite Hfind.
    apply cache_match_batch_entry; assumption.
  - rewrite Hst.
    apply (storage_match_update CACHE_NAME _ q _
             (bucket_of CACHE_NAME (storage w)) r).
    + apply find_bucket_ensure_same.
    + apply cache_match_batch_entry; assumption.
Qed.

End InstalledEntries.

(** C2: when the bucket named [CACHE_NAME] cannot be opened, or when any
    fetch of the batch for the resource list fails (no response, or a
    response that cannot be stored), the install is reported as failed and
    no bucket has gained an entry, so in particular nothing is cached for
    the identifiers after the failing one; and no request is sent twice:
    the requests sent are distinct requests of the list. *)
Theorem install_all_or_nothing (e : Env) (w : World) :
  open_fails e CACHE_NAME = true \/
  Exists (fun r => storable r = false)
    (fst (fetch_all e (map GET urlsToCache) w)) ->
  is_rejected (fst (install_handler e w)) = true /\
  (forall name q,
      bucket_lookup (storage (snd (install_handler e w))) name q
      = bucket_lookup (storage w) name q) /\
  (exists sent,
      net_log (snd (install_handler e w)) = net_log w ++ sent /\
      NoDup sent /\ incl sent (map GET urlsToCache)).
Proof.
  intros H.
  assert (Hrej : is_rejected (fst (install_handler e w)) = true).
  { rewrite install_handler_eq.
    destruct (open_fails e CACHE_NAME) eqn:Ho; [reflexivity|].
    destruct H as [H|H]; [discriminate|].
    rewrite <- install_fetch_results in H.
    rewrite (cache_addAll_unstorable e CACHE_NAME urlsToCache _ H).
    reflexivity. }
  split; [exact Hrej|]. split.
  - apply install_handler_rejected_entries. exact Hrej.
  - rewrite install_handler_log.
    destruct (open_fails e CACHE_NAME).
    + exists []. split; [reflexivity|]. split; [constructor | intros x []].
    + destruct (forallb storable (fst (fetch_all e (map GET urlsToCache) w))).
      * exists (map GET urlsToCache). split; [reflexivity|].
        split; [apply urlsToCache_requests_NoDup | apply incl_refl].
      * exists (filter (fun q => negb (aborted e q)) (map GET urlsToCache)).
        split; [reflexivity|]. split.
        -- apply NoDup_filter, urlsToCache_requests_NoDup.
        -- apply incl_filter.
Qed.

Lemma install_all_or_nothing_witness :
  is_rejected (fst (install_handler Examples.root_only Examples.empty_world)) = true /\
  (forall name q,
      bucket_lookup
        (storage (snd (install_handler Examples.root_only Examples.empty_world)))
        name q
      = bucket_lookup (storage Examples.empty_world) name q).
Proof.
  assert (H : open_fails Examples.root_only CACHE_NAME = true \/
              Exists (fun r => storable r = false)
                (fst (fetch_all Examples.root_only (map GET urlsToCache)
                        Examples.empty_world))).
  { right. apply Exists_cons_tl, Exists_cons_hd. reflexivity. }
  destruct (install_all_or_nothing Examples.root_only Examples.empty_world H)
    as [Hrej [Hent _]].
  split; [exact Hrej | exact Hent].
Defined.

(** C3 (as amended): after an install that completed successfully, for
    every identifier of the resource list the bucket named [CACHE_NAME]
    holds an entry keyed by that identifier, with a response fetched by
    the install; and any later intercepted GET request for that
    identifier that carries none of the headers the stored response
    varies on, whatever was intercepted in between, is answered with the
    response of an entry stored for that identifier while the browser is
    left as it was: no request is sent to the network.  (The lookup of
    the later request is taken not to fail.) *)
Theorem installed_entries_served_from_cache (e : Env) (w : World) (u : string) :
  fst (install_handler e w) = Resolved tt ->
  In u urlsToCache ->
  exists r,
    bucket_lookup (storage (snd (install_handler e w))) CACHE_NAME (GET u)
    = Some r /\
    In (GET u, r) (bucket_of CACHE_NAME (storage (snd (install_handler e w)))) /\
    In (NetResponse r) (fst (fetch_all e (map GET urlsToCache) w)) /\
    forall e' qs q,
      method q = "GET" -> url q = u -> unvaried r q = true ->
      match_fails e' q = false ->
      exists r' name c k,
        In (name, c) (storage (snd (install_handler e w))) /\
        In (k, r') c /\ url k = u /\
        fetch_handler e' q (snd (run_fetches e' qs (snd (install_handler e w))))
        = (Resolved r', snd (run_fetches e' qs (snd (install_handler e w)))).
Proof.
  intros Hok Hu.
  destruct (install_handler_resolved_entry e w u Hok Hu)
    as [r [_ [Hfetched [Hentry Hserve]]]].
  exists r. split.
  { apply (Hserve (GET u)); [reflexivity | reflexivity | apply unvaried_GET]. }
  split; [exact Hentry|]. split; [exact Hfetched|].
  intros e' qs q Hm Hq Hv Hf.
  destruct (Hserve q Hm Hq Hv) as [_ [r' Hr']].
  destruct (storage_match_entry _ q r' Hr') as [name [c [k [Hb [Hk Hurl]]]]].
  exists r', name, c, k. split; [exact Hb|]. split; [exact Hk|].
  split; [congruence|].
  apply fetch_handler_hit; [exact Hf|].
  rewrite run_fetches_storage. exact Hr'.
Qed.

Lemma installed_entries_served_from_cache_witness :
  exists r,
    bucket_lookup
      (storage (snd (install_handler Examples.negotiating Examples.empty_world)))
      CACHE_NAME (GET "/static/css/*")
    = Some r /\
    In (GET "/static/css/*", r)
      (bucket_of CACHE_NAME
         (storage (snd (install_handler Examples.negotiating Examples.empty_world)))) /\
    In (NetResponse r)
      (fst (fetch_all Examples.negotiating (map GET urlsToCache)
              Examples.empty_world)) /\
    forall e' qs q,
      method q = "GET" -> url q = "/static/css/*" -> unvaried r q = true ->
      match_fails e' q = false ->
      exists r' name c k,
        In (name, c)
          (storage (snd (install_handler Examples.negotiating Examples.empty_world))) /\
        In (k, r') c /\ url k = "/static/css/*" /\
        fetch_handler e' q
          (snd (run_fetches e' qs
                  (snd (install_handler Examples.negotiating Examples.empty_world))))
        = (Resolved r',
           snd (run_fetches e' qs
                  (snd (install_handler Examples.negotiating Examples.empty_world)))).
Proof.
  exact (installed_entries_served_from_cache Examples.negotiating
           Examples.empty_world "/static/css/*" eq_refl
           (or_intror (or_introl eq_refl))).
Defined.

(** C3 as the claim words it, refuted: the install completed successfully
    and stored an entry for the site root, yet a later GET request for the
    site root that carries a header the stored response varies on is not
    served from the cache: the interceptor sends it to the network. *)
Lemma later_request_not_served_counterexample :
  fst (install_handler Examples.negotiating Examples.empty_world) = Resolved tt /\
  In "/" urlsToCache /\
  bucket_lookup
    (storage (snd (install_handler Examples.negotiating Examples.empty_world)))
    CACHE_NAME (GET "/")
  = Some (Examples.negotiated "fresh /") /\
  method Examples.root_with_key = "GET" /\
  url Examples.root_with_key = "/" /\
  fetch_handler Examples.online Examples.root_with_key
    (snd (install_handler Examples.negotiating Examples.empty_world))
  = (Resolved (Examples.page "fresh /"),
     log_request Examples.root_with_key
       (snd (install_handler Examples.negotiating Examples.empty_world))).
Proof.
  repeat split; try reflexivity. left. reflexivity.
Qed.

(** C6: the resource list is exactly the four strings ['/'],
    ['/static/css/*'], ['/static/media/*'] and ['/images/*'], and the
    script hands them on as they are written, wildcard character
    included: every request an install sends is a GET, without headers
    of its own, for one of the four strings, none sent twice; an install
    that succeeds sends exactly these four and leaves an entry keyed by
    each of them; and an install changes the entry of no other URL: no
    path under one of the three directories gains an entry. *)
Theorem urlsToCache_taken_literally :
  urlsToCache = [ "/"; "/static/css/*"; "/static/media/*"; "/images/*" ] /\
  (forall e w,
      exists sent,
        net_log (snd (install_handler e w)) = net_log w ++ sent /\
        NoDup sent /\
        forall q, In q sent ->
          In q [ {| method := "GET"; url := "/"; req_headers := [] |};
                 {| method := "GET"; url := "/static/css/*"; req_headers := [] |};
                 {| method := "GET"; url := "/static/media/*"; req_headers := [] |};
                 {| method := "GET"; url := "/images/*"; req_headers := [] |} ]) /\
  (forall e w,
      fst (install_handler e w) = Resolved tt ->
      net_log (snd (install_handler e w)) =
        net_log w ++
        [ {| method := "GET"; url := "/"; req_headers := [] |};
          {| method := "GET"; url := "/static/css/*"; req_headers := [] |};
          {| method := "GET"; url := "/static/media/*"; req_headers := [] |};
          {| method := "GET"; url := "/images/*"; req_headers := [] |} ] /\
      forall k,
        In k [ {| method := "GET"; url := "/"; req_headers := [] |};
               {| method := "GET"; url := "/static/css/*"; req_headers := [] |};
               {| method := "GET"; url := "/static/media/*"; req_headers := [] |};
               {| method := "GET"; url := "/images/*"; req_headers := [] |} ] ->
        exists r,
          In (k, r)
            (bucket_of CACHE_NAME (storage (snd (install_handler e w))))) /\
  (forall e w q name,
      ~ In (url q) [ "/"; "/static/css/*"; "/static/media/*"; "/images/*" ] ->
      bucket_lookup (storage (snd (install_handler e w))) name q
      = bucket_lookup (storage w) name q).
Proof.
  split; [reflexivity|]. split; [|split].
  - intros e w. rewrite install_handler_log.
    destruct (open_fails e CACHE_NAME).
    + exists []. split; [reflexivity|]. split; [constructor | intros q []].
    + destruct (forallb storable (fst (fetch_all e (map GET urlsToCache) w))).
      * exists (map GET urlsToCache). split; [reflexivity|].
        split; [apply urlsToCache_requests_NoDup | intros q Hq; exact Hq].
      * exists (filter (fun q => negb (aborted e q)) (map GET urlsToCache)).
        split; [reflexivity|]. split.
        -- apply NoDup_filter, urlsToCache_requests_NoDup.
        -- intros q Hq. apply filter_In in Hq as [Hq _]. exact Hq.
  - intros e w Hok. split.
    + rewrite install_handler_log.
      destruct (open_fails e CACHE_NAME) eqn:Ho.
      { rewrite install_handler_eq, Ho in Hok. discriminate. }
      destruct (forallb storable (fst (fetch_all e (map GET urlsToCache) w)))
        eqn:Hall; [reflexivity|].
      rewrite install_handler_eq, Ho in Hok.
      rewrite cache_addAll_outcome in Hok by reflexivity.
      rewrite install_fetch_results, Hall in Hok. discriminate.
    + intros k Hk.
      assert (Hu : exists u, In u urlsToCache /\ k = GET u).
      { apply (in_map_iff GET urlsToCache k) in Hk as [u [<- Hu]]. eauto. }
      destruct Hu as [u [Hu ->]].
      destruct (install_handler_resolved_entry e w u Hok Hu)
        as [r [_ [_ [Hentry _]]]].
      exists r. exact Hentry.
  - intros e w q name Hq. apply install_handler_other_entries. exact Hq.
Qed.

Lemma urlsToCache_taken_literally_witness :
  net_log (snd (install_handler Examples.online Examples.empty_world))
    = [ {| method := "GET"; url := "/"; req_headers := [] |};
        {| method := "GET"; url := "/static/css/*"; req_headers := [] |};
        {| method := "GET"; url := "/static/media/*"; req_headers := [] |};
        {| method := "GET"; url := "/images/*"; req_headers := [] |} ] /\
  bucket_lookup (storage (snd (install_handler Examples.online Examples.empty_world)))
    CACHE_NAME
    {| method := "GET"; url := "/static/css/main.css"; req_headers := [] |} = None.
Proof.
  destruct urlsToCache_taken_literally as [_ [_ [Hok Hother]]].
  split.
  - exact (proj1 (Hok Examples.online Examples.empty_world eq_refl)).
  - apply (Hother Examples.online Examples.empty_world
             {| method := "GET"; url := "/static/css/main.css"; req_headers := [] |}
             CACHE_NAME).
    simpl. intuition discriminate.
Defined.

(** ** More on the install handler: outcome and frame *)

(** X1: the outcome of an install, in full: it fails with a storage error
    when the bucket cannot be opened; otherwise with a type error when
    some request of the batch gets no response, or a response whose
    status is outside 200..299 or is 206, or a response whose Vary header
    names "*"; otherwise with a storage error when the batch cannot be
    written; and it succeeds in every other case. *)
Theorem install_outcome (e : Env) (w : World) :
  fst (install_handler e w) =
    if open_fails e CACHE_NAME then Rejected StorageError
    else if forallb
              (fun answer =>
                 match answer with
                 | NetResponse r =>
                     ((200 <=? status r) && (status r <=? 299) &&
                      negb (status r =? 206))%nat &&
                     negb (existsb (String.eqb "*") (vary_fields r))
                 | NetFailure => false
                 end)
              (fst (fetch_all e (map GET urlsToCache) w)) then
      if write_fails e CACHE_NAME then Rejected StorageError else Resolved tt
    else Rejected TypeError.
Proof.
  rewrite install_handler_eq.
  destruct (open_fails e CACHE_NAME); [reflexivity|].
  rewrite cache_addAll_outcome by reflexivity.
  rewrite install_fetch_results. reflexivity.
Qed.

Lemma install_outcome_witness :
  fst (install_handler Examples.all_varying Examples.empty_world)
  = Rejected TypeError.
Proof.
  rewrite (install_outcome Examples.all_varying Examples.empty_world).
  reflexivity.
Defined.

(** X2: an install that opened the bucket and then failed leaves the bucket
    named [CACHE_NAME] in existence, with exactly the entries it had
    before: an empty bucket when there was none. *)
Theorem failed_install_leaves_bucket (e : Env) (w : World) :
  open_fails e CACHE_NAME = false ->
  is_rejected (fst (install_handler e w)) = true ->
  find_bucket CACHE_NAME (storage (snd (install_handler e w)))
  = Some (bucket_of CACHE_NAME (storage w)).
Proof.
  intros Ho Hrej. rewrite install_handler_eq in Hrej |- *. rewrite Ho in Hrej |- *.
  destruct (cache_addAll_cases e CACHE_NAME urlsToCache
              (ensure_bucket CACHE_NAME w)) as [[err Hc]|[resps [_ Hc]]];
    rewrite Hc in Hrej |- *; cbn [fst snd is_rejected] in Hrej |- *;
    [|discriminate].
  rewrite fetch_all_storage. apply find_bucket_ensure_same.
Qed.

Lemma failed_install_leaves_bucket_witness :
  find_bucket CACHE_NAME
    (storage (snd (install_handler Examples.root_only Examples.empty_world)))
  = Some [].
Proof.
  exact (failed_install_leaves_bucket Examples.root_only Examples.empty_world
           eq_refl eq_refl).
Defined.

Section StorageOrder.

Lemma storage_match_app (s1 s2 : CacheStorage) (q : Request) :
  storage_match (s1 ++ s2) q =
    match storage_match s1 q with
    | Some r => Some r
    | None => storage_match s2 q
    end.
Proof.
  induction s1 as [|[n c] s1 IH]; simpl; [reflexivity|].
  destruct (cache_match c q); [reflexivity | exact IH].
Qed.

Lemma update_bucket_absent (name : string) (f : Cache -> Cache)
    (s : CacheStorage) :
  (forall nc, In nc s -> fst nc <> name) ->
  update_bucket name f s = s.
Proof.
  induction s as [|[n c] s IH]; intros H; simpl; [reflexivity|].
  rewrite IH by (intros nc Hin; apply H; right; exact Hin).
  destruct (n =? name)%string eqn:E; [|reflexivity].
  apply String.eqb_eq in E. elim (H (n, c)); [left; reflexivity | exact E].
Qed.

Lemma ensure_bucket_storage (name : string) (w : World) :
  storage (ensure_bucket name w) = storage w \/
  storage (ensure_bucket name w) = storage w ++ [(name, [])].
Proof.
  unfold ensure_bucket. destruct (find_bucket name (storage w)); auto.
Qed.

(* When every updated bucket answers the request with r and no other
   bucket answers it, the storage answers it with r. *)
Lemma storage_match_update_exact (name : string) (f : Cache -> Cache)
    (q : Request) (r : Response) :
  (forall c, cache_match (f c) q = Some r) ->
  forall s c0,
    (forall n c, In (n, c) s -> n <> name -> cache_match c q = None) ->
    find_bucket name s = Some c0 ->
    storage_match (update_bucket name f s) q = Some r.
Proof.
  intros Hf. induction s as [|[n c] s IH]; intros c0 Hother Hfind;
    [discriminate|].
  simpl in *. destruct (n =? name)%string eqn:E; simpl.
  - rewrite Hf. reflexivity.
  - rewrite (Hother n c) by
      (auto; intros ->; rewrite String.eqb_refl in E; discriminate).
    apply (IH c0); [|exact Hfind].
    intros n' c' Hin. apply Hother. right. exact Hin.
Qed.

Lemma storage_match_update_frame (name : string) (f : Cache -> Cache)
    (q : Request) (s : CacheStorage) :
  (forall c, cache_match (f c) q = cache_match c q) ->
  storage_match (update_bucket name f s) q = storage_match s q.
Proof.
  intros Hf. induction s as [|[n c] s IH]; simpl; [reflexivity|].
  destruct (n =? name)%string; simpl; rewrite ?Hf, IH; reflexivity.
Qed.

Lemma storage_match_ensure (name : string) (w : World) (q : Request) :
  storage_match (storage (ensure_bucket name w)) q = storage_match (storage w) q.
Proof.
  destruct (ensure_bucket_storage name w) as [->| ->]; [reflexivity|].
  rewrite storage_match_app. simpl.
  destruct (storage_match (storage w) q); reflexivity.
Qed.

Lemma cache_match_not_GET (c : Cache) (q : Request) :
  method q <> "GET" -> cache_match c q = None.
Proof.
  intros Hm.
  assert (E : (method q =? "GET")%string = false)
    by (apply String.eqb_neq; exact Hm).
  induction c as [|[k v] c IH]; [reflexivity|].
  rewrite cache_match_cons. unfold request_matches. rewrite E. exact IH.
Qed.

Lemma storage_match_not_GET (s : CacheStorage) (q : Request) :
  method q <> "GET" -> storage_match s q = None.
Proof.
  intros Hm. induction s as [|[n c] s IH]; simpl; [reflexivity|].
  rewrite cache_match_not_GET by exact Hm. exact IH.
Qed.

End StorageOrder.

(** X3: after a successful install the bucket named [CACHE_NAME] holds its
    earlier entries for the URLs outside the resource list, in their
    order, followed by one entry per identifier of the list, in the order
    of the list, with the responses the batch fetched; earlier entries for
    the URLs of the list are gone, so the bucket never holds two entries
    for one identifier of the list. *)
Theorem installed_bucket_contents (e : Env) (w : World) :
  fst (install_handler e w) = Resolved tt ->
  exists resps,
    fst (fetch_all e (map GET urlsToCache) w) = map NetResponse resps /\
    find_bucket CACHE_NAME (storage (snd (install_handler e w))) =
      Some (filter (fun kv => negb (listed urlsToCache kv))
              (bucket_of CACHE_NAME (storage w))
            ++ combine (map GET urlsToCache) resps).
Proof.
  intros Hok.
  destruct (install_handler_resolved_storage e w Hok)
    as [resps [_ [Hmap [Hlen Hst]]]].
  exists resps. split; [exact Hmap|].
  rewrite Hst, find_bucket_update_any, find_bucket_ensure_same.
  cbn [option_map]. rewrite String.eqb_refl.
  rewrite fold_cache_put_contents by (exact urlsToCache_NoDup || exact Hlen).
  reflexivity.
Qed.

Lemma installed_bucket_contents_witness :
  exists resps,
    fst (fetch_all Examples.online (map GET urlsToCache) Examples.warm_world)
      = map NetResponse resps /\
    find_bucket CACHE_NAME
      (storage (snd (install_handler Examples.online Examples.warm_world))) =
      Some (filter (fun kv => negb (listed urlsToCache kv))
              (bucket_of CACHE_NAME (storage Examples.warm_world))
            ++ combine (map GET urlsToCache) resps).
Proof.
  exact (installed_bucket_contents Examples.online Examples.warm_world eq_refl).
Defined.

(** X4: after a successful install, the entry of the bucket named
    [CACHE_NAME] for an identifier of the resource list holds exactly the
    response the network gave to the request for that identifier in this
    install (sent after the requests for the identifiers before it),
    whatever the bucket held for it before; and that response has a
    status in 200..299 other than 206. *)
Theorem installed_entry_is_fetched_response (e : Env) (w : World)
    (l1 l2 : list string) (u : string) :
  fst (install_handler e w) = Resolved tt ->
  urlsToCache = l1 ++ u :: l2 ->
  exists r,
    network e (net_log w ++ map GET l1) (GET u) = NetResponse r /\
    storable_status (status r) = true /\
    bucket_lookup (storage (snd (install_handler e w))) CACHE_NAME (GET u)
    = Some r.
Proof.
  intros Hok Hsplit.
  destruct (install_handler_resolved_split e w l1 l2 u Hok Hsplit)
    as [rs1 [r [rs2 [Hnet [Hst [H1 [H2 [_ Hsto]]]]]]]].
  exists r. split; [exact Hnet|]. split.
  { simpl in Hst. apply andb_prop in Hst as [Hst _]. exact Hst. }
  unfold bucket_lookup.
  rewrite Hsto, find_bucket_update_any, find_bucket_ensure_same.
  cbn [option_map]. rewrite String.eqb_refl.
  apply cache_match_batch_entry; try assumption; try reflexivity.
  - rewrite <- Hsplit. exact urlsToCache_NoDup.
  - apply unvaried_GET.
Qed.

Lemma installed_entry_is_fetched_response_witness :
  exists r,
    network Examples.online
      (net_log Examples.warm_world ++ map GET ["/"; "/static/css/*"])
      (GET "/static/media/*") = NetResponse r /\
    storable_status (status r) = true /\
    bucket_lookup
      (storage (snd (install_handler Examples.online Examples.warm_world)))
      CACHE_NAME (GET "/static/media/*")
    = Some r.
Proof.
  exact (installed_entry_is_fetched_response Examples.online Examples.warm_world
           ["/"; "/static/css/*"] ["/images/*"] "/static/media/*"
           eq_refl eq_refl).
Defined.

(** X5: installing again is idempotent on the storage: when a second
    install, run after a successful one, gets the same answers from the
    network, it succeeds too, sends the requests of the list once more and
    leaves the cache storage exactly as the first install left it. *)
Theorem reinstall_idempotent (e : Env) (w : World) :
  fst (install_handler e w) = Resolved tt ->
  fst (fetch_all e (map GET urlsToCache) (snd (install_handler e w)))
    = fst (fetch_all e (map GET urlsToCache) w) ->
  install_handler e (snd (install_handler e w)) =
    (Resolved tt,
     {| storage := storage (snd (install_handler e w));
        net_log := net_log (snd (install_handler e w)) ++ map GET urlsToCache |}).
Proof.
  intros Hok Hsame.
  destruct (install_handler_resolved_storage e w Hok)
    as [resps [Hcol [Hmap [Hlen Hst]]]].
  set (w1 := snd (install_handler e w)) in *.
  assert (Hopen : open_fails e CACHE_NAME = false).
  { rewrite install_handler_eq in Hok.
    destruct (open_fails e CACHE_NAME); [discriminate | reflexivity]. }
  assert (Hwrite : write_fails e CACHE_NAME = false).
  { rewrite install_handler_eq, Hopen in Hok.
    rewrite cache_addAll_outcome in Hok by reflexivity.
    destruct (forallb storable _); [|discriminate].
    destruct (write_fails e CACHE_NAME); [discriminate | reflexivity]. }
  assert (Hens : ensure_bucket CACHE_NAME w1 = w1).
  { unfold ensure_bucket.
    rewrite Hst, find_bucket_update_any, find_bucket_ensure_same.
    reflexivity. }
  rewrite install_handler_eq, Hopen, Hens.
  assert (Hall : forallb storable (fst (fetch_all e (map GET urlsToCache) w1))
                 = true)
    by (rewrite Hsame; exact (collect_some_forallb _ _ Hcol)).
  pose proof (fetch_all_log e (map GET urlsToCache) w1 Hall) as Hl.
  pose proof (fetch_all_storage e (map GET urlsToCache) w1) as Hs.
  unfold cache_addAll. cbv zeta.
  destruct (fetch_all e (map GET urlsToCache) w1) as [rs w2].
  cbn [fst snd] in Hsame, Hs, Hl. rewrite Hsame, Hcol, Hwrite.
  change (has_duplicate (map GET urlsToCache)) with false. cbv iota.
  unfold set_storage. rewrite Hs, Hl. f_equal. f_equal.
  rewrite Hst. apply update_bucket_idempotent.
  intros c. apply fold_cache_put_twice; [exact urlsToCache_NoDup | exact Hlen].
Qed.

Lemma reinstall_idempotent_witness :
  install_handler Examples.online
    (snd (install_handler Examples.online Examples.warm_world)) =
    (Resolved tt,
     {| storage := storage (snd (install_handler Examples.online Examples.warm_world));
        net_log := net_log (snd (install_handler Examples.online Examples.warm_world))
                   ++ map GET urlsToCache |}).
Proof.
  exact (reinstall_idempotent Examples.online Examples.warm_world eq_refl eq_refl).
Defined.

(** X6: an entry held by a bucket created before the bucket named
    [CACHE_NAME] keeps answering after an install, successful or not: the
    interceptor serves the older entry, not the one the install stored,
    and sends nothing to the network. *)
Theorem older_bucket_shadows_install (e : Env) (w : World)
    (s1 s2 : CacheStorage) (q : Request) (r : Response) :
  storage w = s1 ++ s2 ->
  (forall nc, In nc s1 -> fst nc <> CACHE_NAME) ->
  storage_match s1 q = Some r ->
  forall e', match_fails e' q = false ->
    fetch_handler e' q (snd (install_handler e w))
    = (Resolved r, snd (install_handler e w)).
Proof.
  intros Hw Hnames Hmatch e' Hm.
  apply fetch_handler_hit; [exact Hm|].
  assert (Hens : exists t, storage (ensure_bucket CACHE_NAME w) = s1 ++ t).
  { destruct (ensure_bucket_storage CACHE_NAME w) as [->| ->]; rewrite Hw.
    - eauto.
    - rewrite <- app_assoc. eauto. }
  destruct Hens as [t Ht].
  destruct (install_handler_storage e w) as [->|[->|[resps [_ [_ [_ ->]]]]]].
  - rewrite Hw, storage_match_app, Hmatch. reflexivity.
  - rewrite Ht, storage_match_app, Hmatch. reflexivity.
  - rewrite Ht. unfold update_bucket. rewrite map_app.
    fold (update_bucket CACHE_NAME
            (fun c => fold_left cache_put (combine (map GET urlsToCache) resps) c)
            s1).
    rewrite update_bucket_absent by exact Hnames.
    rewrite storage_match_app, Hmatch. reflexivity.
Qed.

Lemma older_bucket_shadows_install_witness :
  fetch_handler Examples.offline (GET "/app.js")
    (snd (install_handler Examples.online Examples.upgraded_world))
  = (Resolved (Examples.page "old app"),
     snd (install_handler Examples.online Examples.upgraded_world)).
Proof.
  apply (older_bucket_shadows_install Examples.online Examples.upgraded_world
           [ ("agrimarket-v0", [ (GET "/app.js", Examples.page "old app") ]) ]
           [ ("agrimarket-v1", []) ]
           (GET "/app.js") (Examples.page "old app")).
  - reflexivity.
  - intros nc [<-|[]]. discriminate.
  - reflexivity.
  - reflexivity.
Defined.

(** X7: when no bucket other than the one named [CACHE_NAME] answers it,
    a GET request for an identifier of the resource list that carries
    none of the headers the installed response varies on is answered,
    after a successful install, with exactly the response this install
    fetched for that identifier, and nothing is sent to the network. *)
Theorem install_then_fresh_response (e : Env) (w : World)
    (l1 l2 : list string) (u : string) :
  fst (install_handler e w) = Resolved tt ->
  urlsToCache = l1 ++ u :: l2 ->
  exists r,
    network e (net_log w ++ map GET l1) (GET u) = NetResponse r /\
    forall q e',
      method q = "GET" -> url q = u -> unvaried r q = true ->
      (forall n c, In (n, c) (storage w) -> n <> CACHE_NAME ->
         cache_match c q = None) ->
      match_fails e' q = false ->
      fetch_handler e' q (snd (install_handler e w))
      = (Resolved r, snd (install_handler e w)).
Proof.
  intros Hok Hsplit.
  destruct (install_handler_resolved_split e w l1 l2 u Hok Hsplit)
    as [rs1 [r [rs2 [Hnet [Hst [H1 [H2 [_ Hsto]]]]]]]].
  assert (Hnd : NoDup (l1 ++ u :: l2))
    by (rewrite <- Hsplit; exact urlsToCache_NoDup).
  exists r. split; [exact Hnet|].
  intros q e' Hm Hq Hv Hother Hf. apply fetch_handler_hit; [exact Hf|].
  rewrite Hsto.
  apply (storage_match_update_exact CACHE_NAME _ q r)
    with (c0 := bucket_of CACHE_NAME (storage w)).
  - intros c. apply cache_match_batch_entry; assumption.
  - intros n c Hin Hn.
    destruct (ensure_bucket_storage CACHE_NAME w) as [Hs|Hs];
      rewrite Hs in Hin.
    + apply (Hother n c Hin Hn).
    + apply in_app_or in Hin as [Hin|[Heq|[]]].
      * apply (Hother n c Hin Hn).
      * injection Heq as <- <-. reflexivity.
  - apply find_bucket_ensure_same.
Qed.

Lemma install_then_fresh_response_witness :
  exists r,
    network Examples.negotiating (net_log Examples.upgraded_world ++ map GET [])
      (GET "/") = NetResponse r /\
    forall q e',
      method q = "GET" -> url q = "/" -> unvaried r q = true ->
      (forall n c, In (n, c) (storage Examples.upgraded_world) ->
         n <> CACHE_NAME -> cache_match c q = None) ->
      match_fails e' q = false ->
      fetch_handler e' q
        (snd (install_handler Examples.negotiating Examples.upgraded_world))
      = (Resolved r,
         snd (install_handler Examples.negotiating Examples.upgraded_world)).
Proof.
  exact (install_then_fresh_response Examples.negotiating Examples.upgraded_world
           [] ["/static/css/*"; "/static/media/*"; "/images/*"] "/"
           eq_refl eq_refl).
Defined.

(** ** More on the fetch interceptor *)

(** X8: a request whose method is not GET is never answered from the
    cache, whatever the cache holds for its URL: when its lookup does not
    fail, the interceptor sends it to the network and settles as the
    network answers. *)
Theorem non_GET_request_goes_to_network (e : Env) (q : Request) (w : World) :
  method q <> "GET" ->
  match_fails e q = false ->
  fetch_handler e q w = (settle (network e (net_log w) q), log_request q w).
Proof.
  intros Hm Hf. apply fetch_handler_miss; [exact Hf|].
  apply storage_match_not_GET. exact Hm.
Qed.

Lemma non_GET_request_goes_to_network_witness :
  fetch_handler Examples.offline
    {| method := "POST"; url := "/"; req_headers := [] |}
    Examples.warm_world
  = (Rejected TypeError,
     log_request {| method := "POST"; url := "/"; req_headers := [] |}
       Examples.warm_world).
Proof.
  apply (non_GET_request_goes_to_network Examples.offline
           {| method := "POST"; url := "/"; req_headers := [] |}
           Examples.warm_world).
  - discriminate.
  - reflexivity.
Defined.

(** X9: over any sequence of intercepted requests, the requests sent to
    the network are exactly the requests of the sequence whose lookup
    resolved with no match in the storage as it was at the start, in
    their order and as often as they occur: an answer of the network is
    never kept, so a request that missed once misses every time. *)
Theorem run_fetches_sends_the_misses (e : Env) (qs : list Request) (w : World) :
  net_log (snd (run_fetches e qs w))
  = net_log w ++ filter (misses e (storage w)) qs.
Proof.
  revert w. induction qs as [|q qs IH]; intros w; simpl.
  - rewrite app_nil_r. reflexivity.
  - pose proof (fetch_handler_storage e q w) as Hs.
    pose proof (fetch_handler_eq e q w) as Hq.
    destruct (fetch_handler e q w) as [r w'].
    specialize (IH w').
    destruct (run_fetches e qs w') as [rs w'']. simpl in *.
    rewrite IH, Hs. unfold misses at 2.
    destruct (match_fails e q); simpl.
    + injection Hq as _ ->. reflexivity.
    + destruct (storage_match (storage w) q); simpl.
      * injection Hq as _ ->. reflexivity.
      * unfold fetch in Hq. injection Hq as _ ->. simpl.
        rewrite <- app_assoc. reflexivity.
Qed.

(** X10: an install changes the answer of the cache storage only for the
    identifiers of the resource list, and a failed install changes it for
    no request at all: for a request whose URL is not in the list, or
    after an install that failed, the lookup over the storage finds what
    it found before the install. *)
Theorem install_preserves_other_answers (e : Env) (w : World) (q : Request) :
  is_rejected (fst (install_handler e w)) = true \/ ~ In (url q) urlsToCache ->
  storage_match (storage (snd (install_handler e w))) q
  = storage_match (storage w) q.
Proof.
  intros H.
  destruct (install_handler_storage e w) as [->|[->|[resps [Hok [_ [_ ->]]]]]].
  - reflexivity.
  - apply storage_match_ensure.
  - destruct H as [H|H]; [rewrite Hok in H; discriminate|].
    rewrite storage_match_update_frame; [apply storage_match_ensure|].
    intros c. apply cache_match_batch_frame. exact H.
Qed.

Lemma install_preserves_other_answers_witness :
  storage_match
    (storage (snd (install_handler Examples.online Examples.warm_world)))
    (GET "/report")
  = Some Examples.broken.
Proof.
  rewrite (install_preserves_other_answers Examples.online Examples.warm_world
             (GET "/report")).
  - reflexivity.
  - right. simpl. intuition discriminate.
Defined.

(** ** Invariants over any history of events *)

Section HistoryInvariants.

Lemma install_handler_named_bucket (e : Env) (w : World) :
  bucket_of CACHE_NAME (storage (snd (install_handler e w)))
  = bucket_of CACHE_NAME (storage w) \/
  exists resps,
    length resps = length urlsToCache /\
    bucket_of CACHE_NAME (storage (snd (install_handler e w))) =
      filter (fun kv => negb (listed urlsToCache kv))
        (bucket_of CACHE_NAME (storage w))
      ++ combine (map GET urlsToCache) resps.
Proof.
  destruct (install_handler_storage e w) as [->|[->|[resps [_ [_ [Hlen ->]]]]]].
  - left. reflexivity.
  - left. unfold bucket_of at 1. rewrite find_bucket_ensure_same. reflexivity.
  - right. exists resps. split; [exact Hlen|].
    unfold bucket_of at 1.
    rewrite find_bucket_update_any, find_bucket_ensure_same.
    cbn [option_map]. rewrite String.eqb_refl.
    apply fold_cache_put_contents; [exact urlsToCache_NoDup | exact Hlen].
Qed.

Lemma dispatch_other_buckets (e : Env) (ev : Event) (w : World) (name : string) :
  name <> CACHE_NAME ->
  find_bucket name (storage (dispatch e ev w)) = find_bucket name (storage w).
Proof.
  intros Hn. destruct ev as [|q]; simpl.
  - destruct (install_handler_storage e w) as [->|[->|[resps [_ [_ [_ ->]]]]]].
    + reflexivity.
    + apply find_bucket_ensure_other. exact Hn.
    + rewrite find_bucket_update_any, find_bucket_ensure_other by exact Hn.
      destruct (find_bucket name (storage w)) as [c|]; [|reflexivity].
      cbn [option_map]. destruct (CACHE_NAME =? name)%string eqn:E; [|reflexivity].
      apply String.eqb_eq in E. congruence.
  - rewrite fetch_handler_storage. reflexivity.
Qed.

End HistoryInvariants.

(** X11: over any history of install and fetch events, under any network
    and storage conditions, the script changes no bucket other than the
    one named [CACHE_NAME]: a bucket of another name, such as the bucket
    of an earlier version, is never written and never deleted. *)
Theorem other_buckets_never_change (history : list (Env * Event)) (w : World)
    (name : string) :
  name <> CACHE_NAME ->
  find_bucket name (storage (run_events history w)) = find_bucket name (storage w).
Proof.
  intros Hn. unfold run_events. revert w.
  induction history as [|[e ev] history IH]; intros w; simpl; [reflexivity|].
  rewrite IH. apply dispatch_other_buckets. exact Hn.
Qed.

Lemma other_buckets_never_change_witness :
  find_bucket "agrimarket-v0"
    (storage (run_events Histories.upgrade_gone_wrong Examples.upgraded_world))
  = Some [ (GET "/app.js", Examples.page "old app") ].
Proof.
  rewrite (other_buckets_never_change Histories.upgrade_gone_wrong
             Examples.upgraded_world "agrimarket-v0").
  - reflexivity.
  - discriminate.
Defined.

(** X12: on an origin where the bucket named [CACHE_NAME] is empty or
    absent, after any history of install and fetch events the bucket is
    either still empty or absent, or holds exactly one entry per
    identifier of the resource list, in the order of the list, and
    nothing else: the bucket never grows beyond the list. *)
Theorem named_bucket_never_outgrows_list (history : list (Env * Event))
    (w : World) :
  bucket_of CACHE_NAME (storage w) = [] ->
  bucket_of CACHE_NAME (storage (run_events history w)) = [] \/
  exists resps,
    length resps = length urlsToCache /\
    bucket_of CACHE_NAME (storage (run_events history w))
    = combine (map GET urlsToCache) resps.
Proof.
  intros H0.
  assert (Hinv : bucket_of CACHE_NAME (storage w) = [] \/
                 exists resps,
                   length resps = length urlsToCache /\
                   bucket_of CACHE_NAME (storage w)
                   = combine (map GET urlsToCache) resps)
    by (left; exact H0).
  clear H0. unfold run_events. revert w Hinv.
  induction history as [|[e ev] history IH]; intros w Hinv; simpl;
    [exact Hinv|].
  apply IH. destruct ev as [|q]; simpl.
  - destruct (install_handler_named_bucket e w) as [->|[resps [Hlen ->]]];
      [exact Hinv|].
    right. exists resps. split; [exact Hlen|].
    destruct Hinv as [->|[old [_ ->]]].
    + reflexivity.
    + rewrite filter_unlisted_batch. reflexivity.
  - rewrite fetch_handler_storage. exact Hinv.
Qed.

Lemma named_bucket_never_outgrows_list_witness :
  bucket_of CACHE_NAME
    (storage (run_events Histories.upgrade_gone_wrong Examples.upgraded_world)) = [] \/
  exists resps,
    length resps = length urlsToCache /\
    bucket_of CACHE_NAME
      (storage (run_events Histories.upgrade_gone_wrong Examples.upgraded_world))
    = combine (map GET urlsToCache) resps.
Proof.
  exact (named_bucket_never_outgrows_list Histories.upgrade_gone_wrong
           Examples.upgraded_world eq_refl).
Defined.
